(** * starlight-nick-server: the [data] package

    A shallow embedding of the claim validator ([NickData], [ValidateNick],
    [GetDataToSign], [Validate]) and of the bolt-backed repository
    ([NewBoltRepository], [List], [Get], [Put]) of
    github.com/boreq/starlight-nick-server, followed by the properties that
    the specification of the repository states about them.

    Go values are modelled as follows.
    - [[]byte] and [node.ID] are [list byte]; a nil slice and an empty slice
      are both the empty list (the code only takes [len] of them, compares
      them with [bytes.Equal] or hands them to bolt, none of which tells
      them apart).
    - [string] is [string] (a sequence of 8-bit characters, as in Go); the
      conversion [[]byte(s)] is [list_byte_of_string].
    - [int64] is [Z] with the wrap-around written out ([wrap64]).
    - [error] is the inductive type [error]; a nil error is [None].
    - a bolt bucket is a finite map from byte strings to byte strings.
    - the libraries the package calls (starlight's [crypto] and [node],
      [encoding/json]) are the fields of the class [External]. *)

From Stdlib Require Import ZArith String Ascii List Strings.Byte Lia.
From Stdlib Require Import DecimalString DecimalZ DecimalN DecimalPos DecimalFacts.
From stdpp Require Import gmap strings list fin_maps countable.

Local Open Scope Z_scope.

(* ===================================================================== *)
(** * Part I: definitions                                                 *)
(* ===================================================================== *)

(** ** Byte strings *)

Abbreviation bytes := (list byte).

#[global] Instance byte_eq_dec : EqDecision byte := Byte.byte_eq_dec.

#[global] Program Instance byte_countable : Countable byte :=
  inj_countable Byte.to_N Byte.of_N Byte.of_to_N.

Module bytes_pkg.
(** [bytes.Equal]: same length and same contents. *)
Definition Equal (a b : bytes) : bool := bool_decide (a = b).

(** [bytes.Buffer]: the bytes written so far. *)
Abbreviation Buffer := (list byte).
Definition empty : Buffer := [].
Definition WriteString (buf : Buffer) (s : string) : Buffer :=
  buf ++ list_byte_of_string s.
Definition Write (buf : Buffer) (p : bytes) : Buffer := buf ++ p.
Definition Bytes (buf : Buffer) : bytes := buf.
End bytes_pkg.

(** ** Machine integers *)

Definition wrap64 (z : Z) : Z := (z + 2 ^ 63) mod 2 ^ 64 - 2 ^ 63.

Definition int64_range (z : Z) : Prop := - 2 ^ 63 <= z < 2 ^ 63.

(** ** [time.Time]

    A wall-clock instant: [wall_sec] is the number of seconds since
    January 1, year 1 00:00:00 UTC (what [t.sec()] returns) and [nsec] the
    nanoseconds within that second.  The monotonic clock reading is left
    out: [After] consults it only when both sides carry one, and the stored
    side of the one comparison in [Put] comes out of [json.Unmarshal], which
    never sets it. *)

Module time.
Record Time := mkTime { wall_sec : Z; nsec : Z }.

Definition unixToInternal : Z :=
  (1969 * 365 + 1969 / 4 - 1969 / 100 + 1969 / 400) * 86400.
Definition internalToUnix : Z := - unixToInternal.

(** [func (t Time) Unix() int64 { return t.sec() + internalToUnix }] *)
Definition Unix (t : Time) : Z := wrap64 (wall_sec t + internalToUnix).

(** [func (t Time) IsZero() bool { return t.sec() == 0 && t.nsec() == 0 }] *)
Definition IsZero (t : Time) : bool := (wall_sec t =? 0) && (nsec t =? 0).

(** [ts > us || ts == us && t.nsec() > u.nsec()] *)
Definition After (t u : Time) : bool :=
  (wall_sec u <? wall_sec t)
  || ((wall_sec t =? wall_sec u) && (nsec u <? nsec t)).


(** The order on instants that [After] decides. *)
Definition before (t u : Time) : Prop :=
  wall_sec t < wall_sec u \/ (wall_sec t = wall_sec u /\ nsec t < nsec u).
End time.

(** ** Errors *)

Inductive error : Type :=
  (* the four sentinel values of the package *)
  | InvalidNickDataErr
  | NewerNickDataPresentErr
  | NickConflictErr
  | InvalidNodeIdErr
  (* errors.New / errors.Errorf *)
  | errors_New (msg : string)
  (* errors.Wrap *)
  | errors_Wrap (cause : error) (msg : string)
  (* the errors of bolt's Bucket.Put *)
  | ErrKeyRequired
  | ErrKeyTooLarge
  | ErrValueTooLarge.

#[global] Instance error_eq_dec : EqDecision error.
Proof. solve_decision. Defined.

(** A Go result [(T, error)]. *)
Definition result (A : Type) : Type := error + A.

(** [errors.Wrap(err, msg)] on a result: nil stays nil. *)
Definition wrap_result {A} (r : result A) (msg : string) : result A :=
  match r with
  | inl e => inl (errors_Wrap e msg)
  | inr a => inr a
  end.

(** ** [regexp]: the fragment [nickRegexp] is written in

    Character classes, concatenation, alternation and repetition, matched
    with Brzozowski derivatives.  A pattern between [^] and [$] (no flags)
    has to match the whole text.  Go decodes the text as UTF-8 and matches
    runes; every class below is ASCII, a byte above 0x7f is never part of an
    ASCII rune, so matching 8-bit characters one by one accepts the same
    texts. *)

Module regexp.
Inductive re : Type :=
  | Void
  | Eps
  | Class (ranges : list (ascii * ascii))
  | Cat (r1 r2 : re)
  | Alt (r1 r2 : re)
  | Star (r : re).

(** [r+] and [r{1}] *)
Definition Plus (r : re) : re := Cat r (Star r).
Definition Once (r : re) : re := r.

Definition in_range (c : ascii) (lohi : ascii * ascii) : bool :=
  ((N_of_ascii (fst lohi) <=? N_of_ascii c)
   && (N_of_ascii c <=? N_of_ascii (snd lohi)))%N.

Definition in_class (ranges : list (ascii * ascii)) (c : ascii) : bool :=
  existsb (in_range c) ranges.

Fixpoint nullable (r : re) : bool :=
  match r with
  | Void => false
  | Eps => true
  | Class _ => false
  | Cat r1 r2 => nullable r1 && nullable r2
  | Alt r1 r2 => nullable r1 || nullable r2
  | Star _ => true
  end.

Fixpoint deriv (c : ascii) (r : re) : re :=
  match r with
  | Void => Void
  | Eps => Void
  | Class rs => if in_class rs c then Eps else Void
  | Cat r1 r2 =>
      if nullable r1
      then Alt (Cat (deriv c r1) r2) (deriv c r2)
      else Cat (deriv c r1) r2
  | Alt r1 r2 => Alt (deriv c r1) (deriv c r2)
  | Star r1 => Cat (deriv c r1) (Star r1)
  end.

Fixpoint matches (r : re) (s : list ascii) : bool :=
  match s with
  | [] => nullable r
  | c :: s' => matches (deriv c r) s'
  end.

(** [Regexp.MatchString] for a pattern anchored at both ends. *)
Definition MatchString (r : re) (s : string) : bool :=
  matches r (list_ascii_of_string s).

(** The language of a pattern. *)
Inductive lang : re -> list ascii -> Prop :=
  | lang_Eps : lang Eps []
  | lang_Class rs c : in_class rs c = true -> lang (Class rs) [c]
  | lang_Cat r1 r2 s1 s2 :
      lang r1 s1 -> lang r2 s2 -> lang (Cat r1 r2) (s1 ++ s2)
  | lang_Alt_l r1 r2 s : lang r1 s -> lang (Alt r1 r2) s
  | lang_Alt_r r1 r2 s : lang r2 s -> lang (Alt r1 r2) s
  | lang_Star_nil r : lang (Star r) []
  | lang_Star_app r s1 s2 :
      lang r s1 -> lang (Star r) s2 -> lang (Star r) (s1 ++ s2).
End regexp.

(** ** [fmt.Sprintf("%d", v)] for an [int64]

    [fmtInteger] negates a negative argument, then fills its buffer from
    the right: [for u >= 10 { next := u / 10; buf[i] = '0' + u - next*10;
    u = next }], then the last digit, then the sign.  A [uint64] has at most
    20 digits, which bounds the loop. *)

Module fmt.
Definition digit (d : Z) : ascii := ascii_of_N (48 + Z.to_N d).

Fixpoint fmt_digits (fuel : nat) (u : Z) (buf : list ascii) : list ascii :=
  match fuel with
  | O => buf
  | S fuel' =>
      if 10 <=? u
      then let next := u / 10 in
           fmt_digits fuel' next (digit (u - next * 10) :: buf)
      else digit u :: buf
  end.

Definition fmtInteger (v : Z) : list ascii :=
  let negative := v <? 0 in
  let u := if negative then - v else v in
  let buf := fmt_digits 20 u [] in
  if negative then "-"%char :: buf else buf.

Definition Sprintf_d (v : Z) : string := string_of_list_ascii (fmtInteger v).
End fmt.

(** The decimal numeral of an integer as the standard library prints it;
    the reference [fmt.Sprintf_d] is compared with. *)
Definition decimal_string (z : Z) : string :=
  NilZero.string_of_int (Z.to_int z).

(** ** The claim: [NickData] *)

(** [crypto.Hash]; the package only names [crypto.SHA512]. *)
Inductive crypto_Hash : Type := crypto_SHA256 | crypto_SHA512.

(** [SigningHash] specifies the hash used for generating the signature. *)
Definition SigningHash : crypto_Hash := crypto_SHA512.

(** [minNickLength] and [maxNickLength]. *)
Definition minNickLength : Z := 3.
Definition maxNickLength : Z := 20.

(** [nickRegexp], <<^[a-zA-Z]{1}[a-zA-Z0-9\_\-\[\]]+$>>. *)
Definition letters : list (ascii * ascii) :=
  [("a", "z"); ("A", "Z")]%char.
Definition nick_chars : list (ascii * ascii) :=
  [("a", "z"); ("A", "Z"); ("0", "9");
   ("_", "_"); ("-", "-"); ("[", "["); ("]", "]")]%char.
Definition nickRegexp : regexp.re :=
  regexp.Cat (regexp.Once (regexp.Class letters))
             (regexp.Plus (regexp.Class nick_chars)).

Record NickData : Type := mkNickData {
  Id : bytes;
  Nick : string;
  Time : time.Time;
  PublicKey : bytes;
  Signature : bytes
}.

(** [len] of a Go string or slice. *)
Definition len_string (s : string) : Z := Z.of_nat (String.length s).
Definition len (b : bytes) : Z := Z.of_nat (List.length b).

(** [GetDataToSign] returns the data which should be signed to produce the
    signature. *)
Definition GetDataToSign (n : NickData) : bytes :=
  let buf := bytes_pkg.empty in
  let buf := bytes_pkg.WriteString buf (fmt.Sprintf_d (time.Unix (Time n))) in
  let buf := bytes_pkg.Write buf (Id n) in
  let buf := bytes_pkg.WriteString buf (Nick n) in
  bytes_pkg.Bytes buf.

(** [ValidateNick] checks if the nick is valid. *)
Definition ValidateNick (nick : string) : option error :=
  if len_string nick <? minNickLength then
    Some (errors_New ("nick needs to be at least "
                      +:+ fmt.Sprintf_d minNickLength +:+ " characters long"))
  else if maxNickLength <? len_string nick then
    Some (errors_New ("nick needs to be at most "
                      +:+ fmt.Sprintf_d maxNickLength +:+ " characters long"))
  else if negb (regexp.MatchString nickRegexp nick) then
    Some (errors_New "nick does not match the regular expression")
  else None.

(** ** The libraries the package calls

    starlight's [crypto] (public keys: decoding, hashing, signature
    verification) and [node] (identity format), and [encoding/json] at the
    type [NickData].  Their code is not part of the repository; the
    package's functions are defined over any implementation of them. *)

Class External : Type := {
  scrypto_PublicKey : Type;
  (** [scrypto.NewPublicKey(bytes) (PublicKey, error)] *)
  scrypto_NewPublicKey : bytes -> result scrypto_PublicKey;
  (** [publicKey.Hash() ([]byte, error)] *)
  PublicKey_Hash : scrypto_PublicKey -> result bytes;
  (** [publicKey.Validate(data, signature, hash) error] *)
  PublicKey_Validate :
    scrypto_PublicKey -> bytes -> bytes -> crypto_Hash -> option error;
  (** [node.ValidateId(id) bool] *)
  node_ValidateId : bytes -> bool;
  (** [json.Marshal(nickData)] and [json.Unmarshal(data, nickData)] *)
  json_Marshal : NickData -> result bytes;
  json_Unmarshal : bytes -> result NickData
}.

(** Modelled from the spec: [node.CompareId] of the starlight library, which
    is not under src/; identities are opaque beyond equality comparison, and
    the comparison of two identities is the equality of their bytes. *)
Definition node_CompareId (a b : bytes) : bool := bytes_pkg.Equal a b.

(** [Validate] checks if this struct is filled correctly. *)
Definition Validate `{External} (n : NickData) : option error :=
  (* Public key *)
  match scrypto_NewPublicKey (PublicKey n) with
  | inl err => Some (errors_Wrap err "could not read the public key")
  | inr publicKey =>
      (* Id *)
      if negb (node_ValidateId (Id n)) then
        Some (errors_New "id is invalid")
      else
        match PublicKey_Hash publicKey with
        | inl err => Some (errors_Wrap err "could not hash the public key")
        | inr id =>
            if negb (node_CompareId id (Id n)) then
              Some (errors_New "id does not match the public key")
            else
              (* Nick *)
              match ValidateNick (Nick n) with
              | Some err => Some (errors_Wrap err "invalid nick")
              | None =>
                  (* Time *)
                  if time.IsZero (Time n) then
                    Some (errors_New "time is zero")
                  else
                    (* Signature *)
                    let data := GetDataToSign n in
                    match PublicKey_Validate publicKey data (Signature n)
                                             SigningHash with
                    | Some err =>
                        Some (errors_Wrap err
                                "could not validate the signature")
                    | None => None
                    end
              end
        end
  end.

(** ** bolt: buckets and transactions

    A bucket maps keys to values.  [Bucket.Put] "returns an error if the
    key is blank, if the key is too large, or if the value is too large";
    failures of the disk are outside the model.  [Bucket.Get] returns nil
    for a key that is absent; the values [Put] stores are never empty.  [DB.Update] runs its
    function in a read-write transaction that is committed when the
    function returns nil and rolled back when it returns an error;
    [DB.View] runs it in a read-only transaction.  Only one read-write
    transaction runs at a time. *)

Inductive BucketName : Type := nickDataBucket | nicksBucket.

(** The contents of the database once [NewBoltRepository] has created the
    two buckets. *)
Record DB : Type := mkDB {
  nickdata : gmap bytes bytes;
  nicks : gmap bytes bytes
}.

(** What a transaction did to the buckets, in order. *)
Inductive access : Type :=
  | ReadKey (b : BucketName) (key : bytes)
  | WriteKey (b : BucketName) (key value : bytes).

Module bolt.
Definition MaxKeySize : Z := 32768.
Definition MaxValueSize : Z := Z.shiftl 1 31 - 2.

Definition Bucket (db : DB) (name : BucketName) : gmap bytes bytes :=
  match name with
  | nickDataBucket => nickdata db
  | nicksBucket => nicks db
  end.

Definition set_Bucket (db : DB) (name : BucketName) (b : gmap bytes bytes)
  : DB :=
  match name with
  | nickDataBucket => mkDB b (nicks db)
  | nicksBucket => mkDB (nickdata db) b
  end.

(** The checks of [Bucket.Put], in its order. *)
Definition put_check (key value : bytes) : option error :=
  if len key =? 0 then Some ErrKeyRequired
  else if MaxKeySize <? len key then Some ErrKeyTooLarge
  else if MaxValueSize <? len value then Some ErrValueTooLarge
  else None.

(** A transaction: the buckets as the transaction sees them and the
    accesses made so far. *)
Record TxState : Type := mkTx { tx_db : DB; tx_log : list access }.

Definition Tx (A : Type) : Type := TxState -> result A * TxState.

Definition ret {A} (a : A) : Tx A := fun st => (inr a, st).
Definition fail {A} (e : error) : Tx A := fun st => (inl e, st).
Definition bind {A B} (m : Tx A) (k : A -> Tx B) : Tx B :=
  fun st =>
    match m st with
    | (inl e, st') => (inl e, st')
    | (inr a, st') => k a st'
    end.
Definition lift {A} (r : result A) : Tx A := fun st => (r, st).

(** [errors.Wrap] around a step that may fail. *)
Definition wrap {A} (m : Tx A) (msg : string) : Tx A :=
  fun st => let '(r, st') := m st in (wrap_result r msg, st').

(** [b.Get(key)]: nil when the key is absent. *)
Definition Get (name : BucketName) (key : bytes) : Tx (option bytes) :=
  fun st =>
    (inr (Bucket (tx_db st) name !! key),
     mkTx (tx_db st) (tx_log st ++ [ReadKey name key])).

(** [b.Put(key, value)] *)
Definition Put (name : BucketName) (key value : bytes) : Tx unit :=
  fun st =>
    match put_check key value with
    | Some e => (inl e, st)
    | None =>
        (inr tt,
         mkTx (set_Bucket (tx_db st) name
                          (<[key := value]> (Bucket (tx_db st) name)))
              (tx_log st ++ [WriteKey name key value]))
    end.

(** [db.Update(fn)]: the new contents and the error of [fn]. *)
Definition Update (db : DB) (fn : Tx unit) : DB * option error :=
  match fn (mkTx db []) with
  | (inl e, _) => (db, Some e)
  | (inr _, st) => (tx_db st, None)
  end.

(** [db.View(fn)]: the contents cannot change. *)
Definition View {A} (db : DB) (fn : Tx A) : result A :=
  fst (fn (mkTx db [])).

(** The accesses [fn] makes when run on [db]. *)
Definition accesses {A} (db : DB) (fn : Tx A) : list access :=
  tx_log (snd (fn (mkTx db []))).
End bolt.

#[global] Instance Tx_ret : MRet bolt.Tx := @bolt.ret.
#[global] Instance Tx_bind : MBind bolt.Tx :=
  fun A B k m => bolt.bind m k.

(** ** The repository *)

Section Repository.
Context `{External}.

Definition unmarshalNickData (data : bytes) : result NickData :=
  wrap_result (json_Unmarshal data) "json unmarshal failed".

Definition getNickData (id : bytes) : bolt.Tx (option NickData) :=
  v ← bolt.Get nickDataBucket id;
  match v with
  | Some v =>
      nickData ← bolt.lift (unmarshalNickData v);
      bolt.ret (Some nickData)
  | None => bolt.ret None
  end.

(** [NewBoltRepository] opens or creates a repository: a new file holds
    two empty buckets, an existing one keeps what it holds. *)
Definition NewBoltRepository (existing : option DB) : DB :=
  match existing with
  | Some db => db
  | None => mkDB ∅ ∅
  end.

(** [List] returns a list of all stored entries.  bolt visits the keys in
    byte order; the order of the result is left open here. *)
Definition List (r : DB) : result (list NickData) :=
  foldr (fun kv rest =>
           match unmarshalNickData kv.2 with
           | inl e => inl (errors_Wrap e "unmarshal failed")
           | inr nickData =>
               match rest with
               | inl e => inl e
               | inr rv => inr (nickData :: rv)
               end
           end)
        (inr []) (map_to_list (nickdata r)).

(** [Get] returns an entry for a specific node id.  If the node id is
    invalid [InvalidNodeIdErr] is returned.  If the entry doesn't exist
    nil is returned without an error. *)
Definition Get (r : DB) (id : bytes) : result (option NickData) :=
  if negb (node_ValidateId id) then inl InvalidNodeIdErr
  else bolt.View r (getNickData id).

(** The function [Put] hands to [db.Update]. *)
Definition Put_tx (nickData : NickData) (value : bytes) : bolt.Tx unit :=
  (* Confirm that the nick doesn't exist *)
  existingId ← bolt.Get nicksBucket (list_byte_of_string (Nick nickData));
  match existingId with
  | Some existingId =>
      if negb (node_CompareId existingId (Id nickData))
      then bolt.fail NickConflictErr else bolt.ret tt
  | None => bolt.ret tt
  end;;
  (* Confirm that there is no newer nick data *)
  previousNickData ← bolt.wrap (getNickData (Id nickData))
                      "error retrieving the previous nick data";
  match previousNickData with
  | Some previousNickData =>
      if time.After (Time previousNickData) (Time nickData)
      then bolt.fail NewerNickDataPresentErr else bolt.ret tt
  | None => bolt.ret tt
  end;;
  (* Insert new nick *)
  bolt.wrap (bolt.Put nicksBucket (Id nickData) value)
    "nicks bucket put failed";;
  bolt.wrap (bolt.Put nickDataBucket (Id nickData) value)
    "nick data bucket put failed".

(** [Put] inserts a new entry.  In case of a nick collision with a
    different node [NickConflictErr] is returned.  In case the entry is
    invalid [InvalidNickDataErr] is returned.  In case there is a newer
    nick data available for this node [NewerNickDataPresentErr] is
    returned. *)
Definition Put (r : DB) (nickData : NickData) : DB * option error :=
  match Validate nickData with
  | Some _ => (r, Some InvalidNickDataErr)
  | None =>
      match json_Marshal nickData with
      | inl err => (r, Some (errors_Wrap err "marshaling nick data failed"))
      | inr value =>
          match bolt.Update r (Put_tx nickData value) with
          | (r', Some err) =>
              if bool_decide (err = NickConflictErr)
                 || bool_decide (err = NewerNickDataPresentErr)
              then (r', Some err)
              else (r', Some (errors_Wrap err "update failed"))
          | (r', None) => (r', None)
          end
      end
  end.

(** The accesses to the buckets that [Put] makes. *)
Definition Put_accesses (r : DB) (nickData : NickData) : list access :=
  match Validate nickData, json_Marshal nickData with
  | None, inr value => bolt.accesses r (Put_tx nickData value)
  | _, _ => []
  end.
End Repository.

(** ** The nickname rule in the words of the specification

    3 to 20 characters; the first a letter a-z or A-Z; the others letters,
    digits, [_], [-], [[] or []]. *)

Definition char_between (lo hi c : ascii) : Prop :=
  (N_of_ascii lo <= N_of_ascii c <= N_of_ascii hi)%N.

Definition is_letter (c : ascii) : Prop :=
  char_between "a" "z" c \/ char_between "A" "Z" c.

Definition is_digit (c : ascii) : Prop := char_between "0" "9" c.

Definition is_nick_char (c : ascii) : Prop :=
  is_letter c \/ is_digit c \/
  c = "_"%char \/ c = "-"%char \/ c = "["%char \/ c = "]"%char.

Definition nick_well_formed (s : string) : Prop :=
  (3 <= String.length s <= 20)%nat /\
  match s with
  | EmptyString => False
  | String c rest =>
      is_letter c /\ Forall is_nick_char (list_ascii_of_string rest)
  end.

(** ** The signing payload in the words of the specification

    The decimal string of the Unix seconds, then the raw identity bytes,
    then the raw nickname bytes. *)

Definition signing_payload (unix : Z) (id : bytes) (nick : string) : bytes :=
  list_byte_of_string (decimal_string unix) ++ id ++ list_byte_of_string nick.

(** The constructor of [Decimal.uint] that writes the digit [r]. *)
Definition little_digit (r : Z) : Decimal.uint -> Decimal.uint :=
  match r with
  | 0 => Decimal.D0 | 1 => Decimal.D1 | 2 => Decimal.D2 | 3 => Decimal.D3
  | 4 => Decimal.D4 | 5 => Decimal.D5 | 6 => Decimal.D6 | 7 => Decimal.D7
  | 8 => Decimal.D8 | _ => Decimal.D9
  end.

(** ** Conditions of [Put] and histories of the repository *)

Section RepositoryStates.
Context `{External}.

(** The first check of [Put_tx] fires: the nicks bucket holds a value
    under the bytes of the claim's nick and that value differs from the
    claim's id. *)
Definition nick_conflict (r : DB) (nickData : NickData) : bool :=
  match nicks r !! list_byte_of_string (Nick nickData) with
  | Some existingId => negb (node_CompareId existingId (Id nickData))
  | None => false
  end.

(** The second check of [Put_tx] fires for the stored claim [previous]. *)
Definition newer_present (previous : option NickData) (nickData : NickData)
  : bool :=
  match previous with
  | Some previousNickData =>
      time.After (Time previousNickData) (Time nickData)
  | None => false
  end.

(** The contents after the two writes of [Put_tx]. *)
Definition stored (r : DB) (nickData : NickData) (value : bytes) : DB :=
  mkDB (<[Id nickData := value]> (nickdata r))
       (<[Id nickData := value]> (nicks r)).

(** Identity [id] holds nickname [nick]: the claim stored for [id] bears
    [nick]. *)
Definition holds_nick (r : DB) (id : bytes) (nick : string) : Prop :=
  exists nickData, Get r id = inr (Some nickData) /\ Nick nickData = nick.

(** The calls a client can make. *)
Inductive op : Type :=
  | OpOpen
  | OpPut (nickData : NickData)
  | OpGet (id : bytes)
  | OpList.

Definition step (r : DB) (o : op) : DB :=
  match o with
  | OpOpen => NewBoltRepository (Some r)
  | OpPut nickData => fst (Put r nickData)
  | OpGet _ => r
  | OpList => r
  end.

(** The contents after a history of calls on a new database. *)
Definition run (history : list op) : DB :=
  fold_left step history (NewBoltRepository None).

Definition reachable (r : DB) : Prop := exists history, run history = r.

(** Calls of [Put] that overlap in time: bolt runs one read-write
    transaction at a time, and what [Put] does before its transaction
    reads no shared state, so the calls take effect one after the other in
    the order their transactions are granted.  [run_puts] runs the calls
    in such an order and returns the final contents with the error of
    each call. *)
Fixpoint run_puts (r : DB) (calls : list NickData)
  : DB * list (option error) :=
  match calls with
  | [] => (r, [])
  | nickData :: calls' =>
      let '(r', err) := Put r nickData in
      let '(r'', errs) := run_puts r' calls' in
      (r'', err :: errs)
  end.

(** The two buckets hold the same entries, each the marshaled form of a
    valid claim under the claim's id. *)
Definition buckets_by_id (r : DB) : Prop :=
  nicks r = nickdata r /\
  forall key value,
    nickdata r !! key = Some value ->
    exists nickData,
      Validate nickData = None /\
      json_Marshal nickData = inr value /\
      Id nickData = key.

(** A claim [Put] can store: it is valid, the codec writes it as [value]
    and reads [value] back as the claim, bolt accepts the pair, and the
    id is not the byte string of the nick. *)
Definition storable (nickData : NickData) (value : bytes) : Prop :=
  Validate nickData = None /\
  json_Marshal nickData = inr value /\
  json_Unmarshal value = inr nickData /\
  bolt.put_check (Id nickData) value = None /\
  Id nickData <> list_byte_of_string (Nick nickData).
End RepositoryStates.

(** ** Test doubles

    Stand-ins for the libraries in the manner of the package's tests: a key
    is any non-empty byte string, its hash the key cut or padded to 32
    bytes, a signature the key followed by the signed data, and the codec
    knows the claims of the fixtures below. *)

Module fixture.
Definition hash (key : bytes) : bytes := resize 32 Byte.x00 key.

Definition sign (key data : bytes) : bytes := key ++ data.

(** [time.Date(year, 1, 1, 1, 1, 1, 1, time.UTC)] for 1989, 1990, 1991 as
    Unix seconds. *)
Definition unix_1989 : Z := 599619661.
Definition unix_1990 : Z := 631155661.
Definition unix_1991 : Z := 662691661.
Definition date (unix : Z) : time.Time :=
  time.mkTime (unix + time.unixToInternal) 1.

Definition withValidSignature (nickData : NickData) : NickData :=
  mkNickData (Id nickData) (Nick nickData) (Time nickData)
             (PublicKey nickData)
             (sign (PublicKey nickData) (GetDataToSign nickData)).

Definition makeNickData (key : string) (nick : string) (t : time.Time)
  : NickData :=
  let key := list_byte_of_string key in
  withValidSignature (mkNickData (hash key) nick t key []).

Definition keyA : string := "public key of A".
Definition keyB : string := "public key of B".
Definition idA : bytes := hash (list_byte_of_string keyA).
Definition idB : bytes := hash (list_byte_of_string keyB).

Definition claimA : NickData := makeNickData keyA "nick" (date unix_1990).
Definition claimA_older : NickData :=
  makeNickData keyA "nick" (date unix_1989).
Definition claimA_newer : NickData :=
  makeNickData keyA "nick" (date unix_1991).
Definition claimB : NickData := makeNickData keyB "nick" (date unix_1990).
(** [TestBoltRepositoryPutInvalid]: a valid claim whose nick is emptied. *)
Definition claimA_invalid : NickData :=
  mkNickData (Id claimA) "" (Time claimA) (PublicKey claimA)
             (Signature claimA).

Definition known : list NickData :=
  [claimA; claimA_older; claimA_newer; claimB].

Definition encode (nickData : NickData) : bytes :=
  GetDataToSign nickData
  ++ list_byte_of_string (fmt.Sprintf_d (time.nsec (Time nickData)))
  ++ PublicKey nickData ++ Signature nickData.

Definition decode (data : bytes) : result NickData :=
  match find (fun c => bool_decide (encode c = data)) known with
  | Some c => inr c
  | None => inl (errors_New "unexpected end of JSON input")
  end.

Definition external : External := {|
  scrypto_PublicKey := bytes;
  scrypto_NewPublicKey key :=
    match key with
    | [] => inl (errors_New "empty key")
    | _ => inr key
    end;
  PublicKey_Hash key := inr (hash key);
  PublicKey_Validate key data signature _ :=
    if bool_decide (signature = sign key data) then None
    else Some (errors_New "verification error");
  node_ValidateId id := len id =? 32;
  json_Marshal nickData := inr (encode nickData);
  json_Unmarshal := decode
|}.

(** [validateNickTestCases]: the nicks of the package's table with the
    verdict expected for each. *)
Fixpoint strings_Repeat (s : string) (count : nat) : string :=
  match count with
  | O => EmptyString
  | S count' => s +:+ strings_Repeat s count'
  end.

Definition validateNickTestCases : list (string * bool) :=
  [ (* Length tests *)
    ("", false); ("a", false); ("aa", false); ("aaa", true);
    (strings_Repeat "a" 20, true); (strings_Repeat "a" 21, false);
    (* Character tests *)
    ("abcde", true); ("ABCDE", true); ("1bcde", false); ("a2345", true);
    ("a2c4e", true); ("_bcde", false); ("a_-[]", true);
    (* Real-life examples *)
    ("user", true); ("user123", true); ("user123[laptop]", true);
    ("user-name[laptop]", true); ("user_name123", true);
    ("user_name[laptop]", true) ].

(** The body of the loop of [TestValidateNick]. *)
Definition nick_test_passes (testCase : string * bool) : bool :=
  match ValidateNick testCase.1 with
  | Some _ => negb testCase.2
  | None => testCase.2
  end.

(** The repository after [Put(claimA)] on a new database. *)
Definition after_A : DB := @run external [OpPut claimA].

(** A database whose nicks bucket maps the nick of [claimA] to the id of
    [claimA]. *)
Definition nick_to_id_A : DB :=
  mkDB ∅ {[ list_byte_of_string (Nick claimA) := idA ]}.
End fixture.

(** ** A codec that reads back what it writes

    The assumption under which the repository returns the claims that were
    put into it: [json.Unmarshal] reads a valid claim back from what
    [json.Marshal] wrote for it. *)

Definition json_round_trip `{External} : Prop :=
  forall nickData value,
    Validate nickData = None ->
    json_Marshal nickData = inr value ->
    json_Unmarshal value = inr nickData.

(** A stand-in for [encoding/json] with that property, for every claim:
    the fields of the claim numbered by their enumeration, the number
    written bit by bit. *)

Module codec.
Definition fields (n : NickData) : bytes * string * Z * Z * bytes * bytes :=
  (Id n, Nick n, time.wall_sec (Time n), time.nsec (Time n),
   PublicKey n, Signature n).

Definition of_fields (t : bytes * string * Z * Z * bytes * bytes)
  : NickData :=
  let '(id, nick, sec, nsec, publicKey, signature) := t in
  mkNickData id nick (time.mkTime sec nsec) publicKey signature.

Fixpoint bits (p : positive) : bytes :=
  match p with
  | xH => []
  | xO p' => Byte.x00 :: bits p'
  | xI p' => Byte.x01 :: bits p'
  end.

Fixpoint of_bits (data : bytes) : option positive :=
  match data with
  | [] => Some xH
  | b :: data' =>
      match of_bits data' with
      | Some p =>
          if bool_decide (b = Byte.x00) then Some (xO p)
          else if bool_decide (b = Byte.x01) then Some (xI p)
          else None
      | None => None
      end
  end.

Definition Marshal (n : NickData) : result bytes :=
  inr (bits (encode (fields n))).

Definition Unmarshal (data : bytes) : result NickData :=
  match of_bits data with
  | Some p =>
      match decode p with
      | Some t => inr (of_fields t)
      | None => inl (errors_New "invalid character")
      end
  | None => inl (errors_New "invalid character")
  end.

(** The libraries of [fixture] with this codec. *)
Definition external : External := {|
  scrypto_PublicKey := bytes;
  scrypto_NewPublicKey := @scrypto_NewPublicKey fixture.external;
  PublicKey_Hash := @PublicKey_Hash fixture.external;
  PublicKey_Validate := @PublicKey_Validate fixture.external;
  node_ValidateId := @node_ValidateId fixture.external;
  json_Marshal := Marshal;
  json_Unmarshal := Unmarshal
|}.

(** The repository after [Put(claimA)], and after [Put(claimB)] as well. *)
Definition after_A : DB := @run external [OpPut fixture.claimA].
Definition after_A_B : DB :=
  @run external [OpPut fixture.claimA; OpPut fixture.claimB].
End codec.

(** ** The text of an error: [err.Error()]

    The sentinel values carry the text they were made with; [errors.Wrap]
    puts its message and a colon in front of the text of the cause; the
    three errors of bolt's [Bucket.Put] read as bolt declares them. *)

Fixpoint error_Error (e : error) : string :=
  match e with
  | InvalidNickDataErr => "invalid nick data"
  | NewerNickDataPresentErr => "newer nick data is available"
  | NickConflictErr => "nick is already taken"
  | InvalidNodeIdErr => "invalid node id"
  | errors_New msg => msg
  | errors_Wrap cause msg => msg +:+ ": " +:+ error_Error cause
  | ErrKeyRequired => "key required"
  | ErrKeyTooLarge => "key too large"
  | ErrValueTooLarge => "value too large"
  end.

(** ** [encoding/hex]: [DecodeString]

    [Decode] reads the source two characters at a time through
    [reverseHexTable] and stops at the first character that is not a hex
    digit; a source of odd length is an error as well.  [DecodeString]
    returns the bytes decoded so far together with the error; the one
    caller tests for an error only and drops them, and so does the
    model. *)

Module hex.
Inductive hex_error : Type :=
  | ErrLength
  | InvalidByteError (c : ascii).

(** [reverseHexTable]: the value of a hex digit, in either case. *)
Definition fromHexChar (c : ascii) : option N :=
  let n := N_of_ascii c in
  if ((48 <=? n) && (n <=? 57))%N then Some (n - 48)%N
  else if ((97 <=? n) && (n <=? 102))%N then Some (n - 97 + 10)%N
  else if ((65 <=? n) && (n <=? 70))%N then Some (n - 65 + 10)%N
  else None.

Fixpoint Decode (src : list ascii) : hex_error + bytes :=
  match src with
  | [] => inr []
  | [p] =>
      match fromHexChar p with
      | None => inl (InvalidByteError p)
      | Some _ => inl ErrLength
      end
  | p :: q :: src' =>
      match fromHexChar p, fromHexChar q with
      | None, _ => inl (InvalidByteError p)
      | Some _, None => inl (InvalidByteError q)
      | Some a, Some b =>
          match Decode src' with
          | inl e => inl e
          | inr dst =>
              inr (byte_of_ascii (ascii_of_N (N.lor (N.shiftl a 4) b))
                   :: dst)
          end
      end
  end.

Definition DecodeString (s : string) : hex_error + bytes :=
  Decode (list_ascii_of_string s).
End hex.

(** ** [strings.TrimSuffix] *)

Module strings_pkg.
(** [s[lo:hi]] *)
Definition slice (s : string) (lo hi : nat) : string :=
  string_of_list_ascii (take (hi - lo) (drop lo (list_ascii_of_string s))).

(** [len(s) >= len(suffix) && s[len(s)-len(suffix):] == suffix] *)
Definition HasSuffix (s suffix : string) : bool :=
  (String.length suffix <=? String.length s)%nat
  && bool_decide (slice s (String.length s - String.length suffix)
                        (String.length s) = suffix).

Definition TrimSuffix (s suffix : string) : string :=
  if HasSuffix s suffix
  then slice s 0 (String.length s - String.length suffix)
  else s.
End strings_pkg.

(** ** [httprouter.Params] *)

Module httprouter.
Abbreviation Params := (list (string * string)).

(** [ByName] returns the value of the first parameter with the given name,
    and the empty string when there is none. *)
Fixpoint ByName (ps : Params) (name : string) : string :=
  match ps with
  | [] => ""
  | (key, value) :: ps' =>
      if String.eqb key name then value else ByName ps' name
  end.
End httprouter.

(** ** Package [api] *)

(** What a handler returns as [interface{}], and what [Call] marshals. *)
Inductive payload : Type :=
  | payload_nil
  | payload_NickData (nickData : NickData)
  | payload_NickDatas (nicks : list NickData)
  | payload_apiError (code : Z) (message : string).

(** [json.Marshal] at the values [Call] hands to it. *)
Class ExternalAPI : Type := {
  json_Marshal_payload : payload -> result bytes
}.

Module api.
(** [api.Error]; [apiError] is its one implementation, nil is [None]. *)
Record apiError : Type := mkApiError { Code : Z; Message : string }.

Definition NewError (code : Z) (message : string) : apiError :=
  mkApiError code message.

Definition InternalServerError : apiError :=
  NewError 500 "Internal server error.".
Definition BadRequest : apiError := NewError 400 "Bad request.".
Definition NotFound : apiError := NewError 404 "Not found.".
Definition NotImplemented : apiError := NewError 501 "Not implemented.".

Definition GetCode (err : apiError) : Z := Code err.
Definition Error (err : apiError) : string := Message err.
Definition WithMessage (err : apiError) (message : string) : apiError :=
  mkApiError (Code err) message.

(** What [Call] writes: the status code, the content type, the body. *)
Record Response : Type := mkResponse {
  StatusCode : Z;
  ContentType : string;
  ResponseBody : bytes
}.

(** [Call], given what the handler returned. *)
Definition Call `{ExternalAPI} (handled : payload * option apiError)
  : Response :=
  let code := 200 in
  let '(response, apiErr) := handled in
  let '(response, code) :=
    match apiErr with
    | Some apiErr =>
        (payload_apiError (GetCode apiErr) (Error apiErr), GetCode apiErr)
    | None => (response, code)
    end in
  let '(j, code) :=
    match json_Marshal_payload response with
    | inr j => (j, code)
    | inl _ =>
        (match json_Marshal_payload
                 (payload_apiError (Code InternalServerError)
                                   (Message InternalServerError)) with
         | inr j => j
         | inl _ => []
         end,
         GetCode InternalServerError)
    end in
  mkResponse code "application/json" j.
End api.

(** ** Package [server] *)

(** The request as the handlers read it: a nil body, a body that cannot be
    read, or the bytes of the body. *)
Record Request : Type := mkRequest { Body : option (result bytes) }.

(** The interface [Repository], over the state of an implementation. *)
Class Repository (S : Type) : Type := {
  repository_List : S -> result (list NickData);
  repository_Put : S -> NickData -> S * option error;
  repository_Get : S -> bytes -> result (option NickData)
}.

(** [BoltRepository] implements it. *)
#[global] Instance BoltRepository `{External} : Repository DB := {|
  repository_List := List;
  repository_Put := Put;
  repository_Get := Get
|}.

Section Server.
Context `{External} {S : Type} `{!Repository S}.

Definition isClientError (err : error) : bool :=
  bool_decide (err = InvalidNickDataErr)
  || bool_decide (err = NewerNickDataPresentErr)
  || bool_decide (err = NickConflictErr)
  || bool_decide (err = InvalidNodeIdErr).

Definition getParamString (ps : httprouter.Params) (name : string)
  : string :=
  strings_pkg.TrimSuffix (httprouter.ByName ps name) ".json".

Definition GetNicks (repository : S) (r : Request) (ps : httprouter.Params)
  : payload * option api.apiError :=
  match repository_List repository with
  | inl err => (payload_nil, Some api.InternalServerError)
  | inr nicks => (payload_NickDatas nicks, None)
  end.

Definition GetNick (repository : S) (r : Request) (ps : httprouter.Params)
  : payload * option api.apiError :=
  match hex.DecodeString (getParamString ps "id") with
  | inl err =>
      (payload_nil, Some (api.WithMessage api.BadRequest "Invalid node ID."))
  | inr nodeId =>
      match repository_Get repository nodeId with
      | inl err =>
          if isClientError err
          then (payload_nil,
                Some (api.WithMessage api.BadRequest (error_Error err)))
          else (payload_nil, Some api.InternalServerError)
      | inr None => (payload_nil, Some api.NotFound)
      | inr (Some nickData) => (payload_NickData nickData, None)
      end
  end.

(** [PutNick] returns the state of the repository as well. *)
Definition PutNick (repository : S) (r : Request) (ps : httprouter.Params)
  : S * (payload * option api.apiError) :=
  match Body r with
  | None => (repository, (payload_nil, Some api.BadRequest))
  | Some (inl err) => (repository, (payload_nil, Some api.BadRequest))
  | Some (inr body) =>
      match json_Unmarshal body with
      | inl err => (repository, (payload_nil, Some api.BadRequest))
      | inr nickData =>
          match repository_Put repository nickData with
          | (repository', Some err) =>
              if isClientError err
              then (repository',
                    (payload_nil,
                     Some (api.WithMessage api.BadRequest (error_Error err))))
              else (repository', (payload_nil, Some api.InternalServerError))
          | (repository', None) => (repository', (payload_nil, None))
          end
      end
  end.
End Server.

(** The text a hex id has: an even number of hex digits. *)
Definition is_hex_digit (c : ascii) : Prop :=
  char_between "0" "9" c \/ char_between "a" "f" c \/ char_between "A" "F" c.

Definition is_hex_string (s : string) : Prop :=
  Nat.Even (String.length s) /\ Forall is_hex_digit (list_ascii_of_string s).

(** A stand-in for [json.Marshal] in [Call]: the code of an error value,
    one byte for anything else. *)
Module fixture_api.
Definition external : ExternalAPI := {|
  json_Marshal_payload response :=
    match response with
    | payload_apiError code message =>
        inr (list_byte_of_string (fmt.Sprintf_d code +:+ " " +:+ message))
    | _ => inr [Byte.x00]
    end
|}.

Definition request (body : bytes) : Request := mkRequest (Some (inr body)).

(** The body of a request that puts [nickData], with the codec of
    [codec]. *)
Definition put_request (nickData : NickData) : Request :=
  match codec.Marshal nickData with
  | inr body => request body
  | inl _ => mkRequest None
  end.

(** The status code [Call] writes for what a handler returned. *)
Definition status_of (handled : payload * option api.apiError) : Z :=
  api.StatusCode (@api.Call external handled).
End fixture_api.

(** ** [encoding/json] on the [Time] of a claim

    [json.Marshal] writes the field [Time] with [Time.MarshalJSON], which
    returns an error for a year below 0 or above 9999 (RFC 3339 has years
    of four digits), and [json.Marshal] returns that error for the whole
    claim.  [Validate] puts no bound on the year.  A stand-in for the
    codec with that check, for instants in UTC: the codec of [codec]
    behind the check of the year. *)

Module json_time.
(** January 1, 00:00:00 UTC, of the years 0 and 10000 as Unix seconds. *)
Definition unix_year_0 : Z := -62167219200.
Definition unix_year_10000 : Z := 253402300800.

(** [y := t.Year(); y < 0 || y >= 10000], negated. *)
Definition year_in_range (t : time.Time) : bool :=
  let unix := time.wall_sec t + time.internalToUnix in
  (unix_year_0 <=? unix) && (unix <? unix_year_10000).

Definition Marshal (n : NickData) : result bytes :=
  if year_in_range (Time n) then codec.Marshal n
  else
    inl (errors_New
           ("json: error calling MarshalJSON for type time.Time: "
            +:+ "Time.MarshalJSON: year outside of range [0,9999]")).

(** The libraries of [codec] with this check in [json.Marshal]. *)
Definition external : External := {|
  scrypto_PublicKey := bytes;
  scrypto_NewPublicKey := @scrypto_NewPublicKey fixture.external;
  PublicKey_Hash := @PublicKey_Hash fixture.external;
  PublicKey_Validate := @PublicKey_Validate fixture.external;
  node_ValidateId := @node_ValidateId fixture.external;
  json_Marshal := Marshal;
  json_Unmarshal := codec.Unmarshal
|}.

(** A claim of A for the first second of the year 10000, signed like the
    other claims of the fixtures. *)
Definition claimA_year_10000 : NickData :=
  fixture.makeNickData fixture.keyA "nick" (fixture.date unix_year_10000).

(** The repository after [Put(claimA)] on a new database. *)
Definition after_A : DB := @run external [OpPut fixture.claimA].
End json_time.

(* ===================================================================== *)
(** * Part II: properties                                                 *)
(* ===================================================================== *)

(** ** The matcher decides the language of a pattern *)

Section RegexpFacts.
Import regexp.

Lemma nullable_lang r : nullable r = true <-> lang r [].
Proof.
  split.
  - induction r; simpl; intros Hn; try discriminate.
    + constructor.
    + apply andb_true_iff in Hn as [H1 H2].
      change (@nil ascii) with (@nil ascii ++ []). constructor; auto.
    + apply orb_true_iff in Hn as [H1 | H2];
        [apply lang_Alt_l | apply lang_Alt_r]; auto.
    + constructor.
  - intros Hl. remember [] as w eqn:Hw.
    induction Hl; simpl; auto; try discriminate.
    + apply app_eq_nil in Hw as [-> ->].
      rewrite IHHl1, IHHl2; auto.
    + rewrite IHHl; auto.
    + rewrite IHHl; auto. apply orb_true_r.
Qed.

Lemma deriv_sound c r : forall s, lang (deriv c r) s -> lang r (c :: s).
Proof.
  induction r; simpl; intros s Hl.
  - inversion Hl.
  - inversion Hl.
  - destruct (in_class ranges c) eqn:Hc; inversion Hl; subst.
    constructor; assumption.
  - assert (Hcat : forall w, lang (Cat (deriv c r1) r2) w ->
                             lang (Cat r1 r2) (c :: w)).
    { intros w Hw. inversion Hw; subst.
      change (c :: s1 ++ s2) with ((c :: s1) ++ s2).
      constructor; auto. }
    destruct (nullable r1) eqn:Hn; [| auto].
    inversion Hl; subst; [auto |].
    change (c :: s) with ([] ++ c :: s).
    constructor; [apply nullable_lang; assumption | auto].
  - inversion Hl; subst; [apply lang_Alt_l | apply lang_Alt_r]; auto.
  - inversion Hl; subst.
    change (c :: s1 ++ s2) with ((c :: s1) ++ s2).
    constructor; auto.
Qed.

Lemma deriv_complete c r s : lang r (c :: s) -> lang (deriv c r) s.
Proof.
  intros Hl. remember (c :: s) as w eqn:Hw.
  revert s Hw. induction Hl; intros t Hw; simpl; try discriminate.
  - injection Hw as -> <-. rewrite H. constructor.
  - destruct s1 as [| c1 s1]; simpl in Hw.
    + subst s2. apply nullable_lang in Hl1. rewrite Hl1.
      apply lang_Alt_r. auto.
    + injection Hw as -> <-.
      assert (Hcat : lang (Cat (deriv c r1) r2) (s1 ++ s2))
        by (constructor; auto).
      destruct (nullable r1); [apply lang_Alt_l |]; assumption.
  - apply lang_Alt_l; auto.
  - apply lang_Alt_r; auto.
  - destruct s1 as [| c1 s1]; simpl in Hw.
    + subst s2. apply (IHHl2 t eq_refl).
    + injection Hw as -> <-. constructor; auto.
Qed.

Lemma matches_lang : forall s r, matches r s = true <-> lang r s.
Proof.
  induction s as [| c s IH]; intros r; simpl.
  - apply nullable_lang.
  - rewrite IH. split; [apply deriv_sound | apply deriv_complete].
Qed.

Lemma lang_Star_Class rs s :
  lang (Star (Class rs)) s <-> Forall (fun c => in_class rs c = true) s.
Proof.
  split.
  - intros Hl. remember (Star (Class rs)) as r eqn:Hr.
    induction Hl; try discriminate; [constructor |].
    injection Hr as ->. inversion Hl1; subst. simpl.
    constructor; auto.
  - induction 1 as [| c s Hc _ IH]; [constructor |].
    change (c :: s) with ([c] ++ s).
    constructor; [constructor |]; assumption.
Qed.

(** A text matches [^[L]{1}[R]+$] when its first character is in [L] and
    the rest is a non-empty run of characters of [R]. *)
Lemma lang_Once_Plus ls rs s :
  lang (Cat (Once (Class ls)) (Plus (Class rs))) s <->
  exists c rest, s = c :: rest /\ in_class ls c = true /\ rest <> [] /\
                 Forall (fun x => in_class rs x = true) rest.
Proof.
  unfold Once, Plus. split.
  - intros Hl. inversion Hl as [| | ? ? s1 s2 H1 H2 | | | |]; subst.
    inversion H1; subst.
    inversion H2 as [| | ? ? t1 t2 H3 H4 | | | |]; subst.
    inversion H3; subst.
    exists c, (c0 :: t2). split; [reflexivity |]. split; [assumption |].
    split; [discriminate |].
    constructor; [assumption |]. apply lang_Star_Class; assumption.
  - intros (c & rest & -> & Hc & Hne & Hall).
    destruct rest as [| d rest]; [congruence |].
    inversion Hall; subst.
    change (c :: d :: rest) with ([c] ++ ([d] ++ rest)).
    constructor; [constructor; assumption |].
    constructor; [constructor; assumption |].
    apply lang_Star_Class; assumption.
Qed.
End RegexpFacts.

(** ** [ValidateNick] *)

Lemma in_range_between c lo hi :
  regexp.in_range c (lo, hi) = true <-> char_between lo hi c.
Proof.
  unfold regexp.in_range, char_between. simpl.
  rewrite andb_true_iff, !N.leb_le. reflexivity.
Qed.

Lemma in_range_single c x : regexp.in_range c (x, x) = true <-> c = x.
Proof.
  rewrite in_range_between. unfold char_between. split.
  - intros [H1 H2].
    rewrite <- (ascii_N_embedding c), <- (ascii_N_embedding x).
    f_equal. lia.
  - intros ->. lia.
Qed.

Lemma in_class_letters c : regexp.in_class letters c = true <-> is_letter c.
Proof.
  unfold regexp.in_class, letters, is_letter. simpl.
  rewrite !orb_true_iff, !in_range_between. intuition discriminate.
Qed.

Lemma in_class_nick_chars c :
  regexp.in_class nick_chars c = true <-> is_nick_char c.
Proof.
  unfold regexp.in_class, nick_chars, is_nick_char, is_letter, is_digit.
  simpl. rewrite !orb_true_iff, !in_range_single, !in_range_between.
  intuition discriminate.
Qed.

Lemma length_list_ascii_of_string s :
  List.length (list_ascii_of_string s) = String.length s.
Proof. induction s; simpl; congruence. Qed.

Lemma MatchString_nickRegexp s :
  regexp.MatchString nickRegexp s = true <->
  match s with
  | EmptyString => False
  | String c rest =>
      is_letter c /\ rest <> EmptyString /\
      Forall is_nick_char (list_ascii_of_string rest)
  end.
Proof.
  unfold regexp.MatchString, nickRegexp.
  rewrite matches_lang, lang_Once_Plus. split.
  - intros (c & rest & Hs & Hc & Hne & Hall).
    destruct s as [| c' s']; simpl in Hs; [discriminate |].
    injection Hs as -> <-.
    split; [apply in_class_letters; assumption |].
    split; [intros ->; apply Hne; reflexivity |].
    eapply Forall_impl; [| exact Hall].
    intros a Ha. apply in_class_nick_chars; assumption.
  - destruct s as [| c s']; [tauto |]. intros (Hc & Hne & Hall).
    exists c, (list_ascii_of_string s'). simpl.
    split; [reflexivity |].
    split; [apply in_class_letters; assumption |].
    split; [destruct s'; [congruence | discriminate] |].
    eapply Forall_impl; [| exact Hall].
    intros a Ha. apply in_class_nick_chars; assumption.
Qed.

(** A nick that passes has an admissible length. *)
Lemma ValidateNick_length (s : string) :
  ValidateNick s = None -> minNickLength <= len_string s <= maxNickLength.
Proof.
  unfold ValidateNick.
  destruct (Z.ltb_spec (len_string s) minNickLength); [discriminate |].
  destruct (Z.ltb_spec maxNickLength (len_string s)); [discriminate |].
  intros _. lia.
Qed.

(** C6. [ValidateNick s] succeeds exactly when [s] has 3 to 20 characters,
    starts with a letter a-z or A-Z and continues with letters, digits,
    underscores, dashes and square brackets only; "aaa" and "a_-[]" are
    accepted, "aa" and "_bcde" are rejected. *)
Theorem ValidateNick_iff_well_formed :
  (forall s : string, ValidateNick s = None <-> nick_well_formed s) /\
  ValidateNick "aaa" = None /\
  ValidateNick "a_-[]" = None /\
  ValidateNick "aa" <> None /\
  ValidateNick "_bcde" <> None.
Proof.
  split; [| repeat split; try reflexivity; discriminate].
  intros s. unfold ValidateNick, nick_well_formed, len_string,
    minNickLength, maxNickLength.
  destruct (Z.ltb_spec (Z.of_nat (String.length s)) 3) as [Hlo | Hlo].
  { split; [discriminate | intros [Hlen _]; lia]. }
  destruct (Z.ltb_spec 20 (Z.of_nat (String.length s))) as [Hhi | Hhi].
  { split; [discriminate | intros [Hlen _]; lia]. }
  destruct (regexp.MatchString nickRegexp s) eqn:Hm; simpl.
  - apply MatchString_nickRegexp in Hm.
    split; [intros _ | reflexivity].
    split; [lia |]. destruct s; tauto.
  - split; [discriminate |]. intros [Hlen Hs].
    assert (Hm' : regexp.MatchString nickRegexp s = true);
      [| congruence].
    apply MatchString_nickRegexp.
    destruct s as [| c rest]; [assumption |].
    destruct Hs as [Hc Hall]. repeat split; try assumption.
    intros ->. simpl in Hlen. lia.
Qed.

(** ** [fmt.Sprintf_d] prints the decimal numeral *)

Section FmtFacts.
Import Decimal.
Import DecimalPos.Unsigned.

Lemma string_of_little_digit r d :
  0 <= r < 10 ->
  NilEmpty.string_of_uint (little_digit r d) =
  String (fmt.digit r) (NilEmpty.string_of_uint d).
Proof.
  intros Hr.
  assert (Hcases : r = 0 \/ r = 1 \/ r = 2 \/ r = 3 \/ r = 4 \/
                   r = 5 \/ r = 6 \/ r = 7 \/ r = 8 \/ r = 9) by lia.
  repeat destruct Hcases as [-> | Hcases]; try subst r; reflexivity.
Qed.

Lemma to_lu_small r :
  0 < r < 10 -> to_lu (Z.to_N r) = little_digit r Nil.
Proof.
  intros Hr.
  assert (Hcases : r = 1 \/ r = 2 \/ r = 3 \/ r = 4 \/
                   r = 5 \/ r = 6 \/ r = 7 \/ r = 8 \/ r = 9) by lia.
  repeat destruct Hcases as [-> | Hcases]; try subst r; reflexivity.
Qed.

(** [to_lu (10 * n + k)] by [k] successors of [to_lu (10 * n)]. *)
Ltac by_succ Hten :=
  cbn [Nat.iter nat_rect];
  rewrite !N.add_succ_r, N.add_0_r, !to_lu_succ, Hten; reflexivity.

Lemma to_lu_tenfold_plus q r :
  0 < q -> 0 <= r < 10 ->
  to_lu (Z.to_N (q * 10 + r)) = little_digit r (to_lu (Z.to_N q)).
Proof.
  intros Hq Hr.
  destruct q as [| p |]; try lia.
  assert (Hten : to_lu (10 * N.pos p) = D0 (to_lu (N.pos p)))
    by apply to_ldec_tenfold.
  replace (Z.to_N (Z.pos p * 10 + r)) with (10 * N.pos p + Z.to_N r)%N
    by lia.
  change (Z.to_N (Z.pos p)) with (N.pos p).
  assert (Hcases : r = 0 \/ r = 1 \/ r = 2 \/ r = 3 \/ r = 4 \/
                   r = 5 \/ r = 6 \/ r = 7 \/ r = 8 \/ r = 9) by lia.
  repeat destruct Hcases as [-> | Hcases]; try subst r;
    cbn [Z.to_N little_digit].
  - rewrite N.add_0_r. exact Hten.
  - change 1%N with (Nat.iter 1 N.succ 0%N). by_succ Hten.
  - change 2%N with (Nat.iter 2 N.succ 0%N). by_succ Hten.
  - change 3%N with (Nat.iter 3 N.succ 0%N). by_succ Hten.
  - change 4%N with (Nat.iter 4 N.succ 0%N). by_succ Hten.
  - change 5%N with (Nat.iter 5 N.succ 0%N). by_succ Hten.
  - change 6%N with (Nat.iter 6 N.succ 0%N). by_succ Hten.
  - change 7%N with (Nat.iter 7 N.succ 0%N). by_succ Hten.
  - change 8%N with (Nat.iter 8 N.succ 0%N). by_succ Hten.
  - change 9%N with (Nat.iter 9 N.succ 0%N). by_succ Hten.
Qed.

Lemma revapp_little_digit r d acc :
  revapp (little_digit r d) acc = revapp d (little_digit r acc).
Proof.
  destruct r as [| p |]; try reflexivity.
  do 4 (destruct p; try reflexivity).
Qed.

(** The loop of [fmtInteger] writes the digits the standard conversion
    produces, given fuel for all of them. *)
Lemma fmt_digits_revapp : forall fuel u buf acc,
  0 < u < 10 ^ Z.of_nat fuel ->
  string_of_list_ascii buf = NilEmpty.string_of_uint acc ->
  string_of_list_ascii (fmt.fmt_digits fuel u buf) =
  NilEmpty.string_of_uint (revapp (to_lu (Z.to_N u)) acc).
Proof.
  induction fuel as [| fuel IH]; intros u buf acc Hu Hbuf.
  - simpl in Hu. lia.
  - simpl fmt.fmt_digits.
    destruct (Z.leb_spec 10 u) as [Hge | Hlt].
    + pose proof (Z.div_mod u 10 ltac:(lia)) as Hdm.
      pose proof (Z.mod_pos_bound u 10 ltac:(lia)) as Hmod.
      set (q := u / 10) in *.
      assert (Hr : u - q * 10 = u mod 10) by lia.
      assert (Hq : 0 < q) by lia.
      replace (Z.to_N u) with (Z.to_N (q * 10 + (u - q * 10)))
        by (f_equal; lia).
      rewrite to_lu_tenfold_plus by lia.
      rewrite revapp_little_digit.
      apply IH.
      * split; [assumption |].
        rewrite Nat2Z.inj_succ, Z.pow_succ_r in Hu by lia. lia.
      * simpl. rewrite string_of_little_digit by lia. congruence.
    + rewrite to_lu_small by lia. rewrite revapp_little_digit.
      simpl. rewrite string_of_little_digit by lia. congruence.
Qed.

Lemma fmt_digits_pos p :
  Z.pos p < 10 ^ 20 ->
  string_of_list_ascii (fmt.fmt_digits 20 (Z.pos p) []) =
  NilZero.string_of_uint (Pos.to_uint p).
Proof.
  intros Hp.
  rewrite (fmt_digits_revapp 20 (Z.pos p) [] Nil);
    [| split; [lia | exact Hp] | reflexivity].
  unfold NilZero.string_of_uint.
  change (revapp (to_lu (Z.to_N (Z.pos p))) Nil) with (Pos.to_uint p).
  pose proof (to_uint_nonnil p) as Hnn.
  destruct (Pos.to_uint p); [congruence | reflexivity ..].
Qed.

(** [Sprintf("%d", v)] is the decimal numeral of [v], for every [int64]. *)
Lemma Sprintf_d_decimal v :
  int64_range v -> fmt.Sprintf_d v = decimal_string v.
Proof.
  unfold int64_range, fmt.Sprintf_d, fmt.fmtInteger, decimal_string.
  intros Hv. destruct v as [| p | p].
  - reflexivity.
  - change (Z.pos p <? 0) with false. cbv iota.
    apply fmt_digits_pos. lia.
  - change (Z.neg p <? 0) with true. cbv iota.
    change (- Z.neg p) with (Z.pos p).
    cbn [string_of_list_ascii Z.to_int NilZero.string_of_int].
    f_equal. apply fmt_digits_pos. lia.
Qed.
End FmtFacts.

Lemma wrap64_range z : int64_range (wrap64 z).
Proof.
  unfold int64_range, wrap64.
  pose proof (Z.mod_pos_bound (z + 2 ^ 63) (2 ^ 64) ltac:(lia)). lia.
Qed.

(** ** [GetDataToSign] *)

(** C5. [GetDataToSign] returns the decimal string of the Unix seconds of
    [Time], followed by the bytes of [Id], followed by the bytes of [Nick];
    the public key and the signature do not enter it. *)
Theorem GetDataToSign_payload :
  forall n : NickData,
    GetDataToSign n = signing_payload (time.Unix (Time n)) (Id n) (Nick n) /\
    forall publicKey signature,
      GetDataToSign (mkNickData (Id n) (Nick n) (Time n) publicKey signature)
      = GetDataToSign n.
Proof.
  intros n. split; [| reflexivity].
  unfold GetDataToSign, signing_payload, bytes_pkg.Bytes, bytes_pkg.Write,
    bytes_pkg.WriteString, bytes_pkg.empty.
  rewrite Sprintf_d_decimal by apply wrap64_range.
  simpl. rewrite <- app_assoc. reflexivity.
Qed.

(** ** [Validate] *)



(** What a valid claim passed, for the checks the repository relies on. *)
Lemma Validate_ValidateId `{External} (n : NickData) :
  Validate n = None -> node_ValidateId (Id n) = true.
Proof.
  unfold Validate.
  destruct (scrypto_NewPublicKey (PublicKey n)); [discriminate |].
  destruct (node_ValidateId (Id n)); [reflexivity | discriminate].
Qed.

Lemma Validate_ValidateNick `{External} (n : NickData) :
  Validate n = None -> ValidateNick (Nick n) = None.
Proof.
  unfold Validate.
  destruct (scrypto_NewPublicKey (PublicKey n)) as [e | publicKey];
    [discriminate |].
  destruct (negb (node_ValidateId (Id n))); [discriminate |].
  destruct (PublicKey_Hash publicKey) as [e | id]; [discriminate |].
  destruct (negb (node_CompareId id (Id n))); [discriminate |].
  destruct (ValidateNick (Nick n)); [discriminate | reflexivity].
Qed.


(** ** The transaction of [Put], step by step *)

Section RepositoryFacts.
Context `{External}.

(** Reduce the projections and wrappers of a transaction, not the maps. *)
Ltac tx_step :=
  cbn [bolt.tx_db bolt.tx_log bolt.Bucket bolt.set_Bucket app wrap_result
       nickdata nicks negb].

Lemma View_getNickData (r : DB) (id : bytes) :
  bolt.View r (getNickData id) =
  match nickdata r !! id with
  | Some v =>
      match json_Unmarshal v with
      | inl e => inl (errors_Wrap e "json unmarshal failed")
      | inr nickData => inr (Some nickData)
      end
  | None => inr None
  end.
Proof.
  unfold bolt.View, getNickData, mbind, Tx_bind, bolt.bind, bolt.Get,
    bolt.lift, bolt.ret, unmarshalNickData, wrap_result. simpl.
  destruct (nickdata r !! id) as [v |]; [| reflexivity].
  destruct (json_Unmarshal v); reflexivity.
Qed.

(** What [Put_tx] returns, the contents it leaves and the accesses it
    makes, by the conditions it tests. *)
Lemma Put_tx_run (r : DB) (nickData : NickData) (value : bytes) :
  let read_nick :=
    ReadKey nicksBucket (list_byte_of_string (Nick nickData)) in
  let read_id := ReadKey nickDataBucket (Id nickData) in
  Put_tx nickData value (bolt.mkTx r []) =
  if nick_conflict r nickData then
    (inl NickConflictErr, bolt.mkTx r [read_nick])
  else
    match bolt.View r (getNickData (Id nickData)) with
    | inl e =>
        (inl (errors_Wrap e "error retrieving the previous nick data"),
         bolt.mkTx r [read_nick; read_id])
    | inr previous =>
        if newer_present previous nickData then
          (inl NewerNickDataPresentErr, bolt.mkTx r [read_nick; read_id])
        else
          match bolt.put_check (Id nickData) value with
          | Some e =>
              (inl (errors_Wrap e "nicks bucket put failed"),
               bolt.mkTx r [read_nick; read_id])
          | None =>
              (inr tt,
               bolt.mkTx (stored r nickData value)
                 [read_nick; read_id;
                  WriteKey nicksBucket (Id nickData) value;
                  WriteKey nickDataBucket (Id nickData) value])
          end
    end.
Proof.
  intros read_nick read_id. subst read_nick read_id.
  rewrite View_getNickData.
  unfold Put_tx, nick_conflict, newer_present, stored, getNickData,
    unmarshalNickData, mbind, Tx_bind, bolt.bind, bolt.wrap,
    bolt.Get, bolt.Put, bolt.lift, bolt.ret, bolt.fail.
  tx_step.
  destruct (nicks r !! list_byte_of_string (Nick nickData)) as [e |];
    [destruct (node_CompareId e (Id nickData)) |];
    tx_step; try reflexivity;
    (destruct (nickdata r !! Id nickData) as [v |];
     [destruct (json_Unmarshal v) as [err | previous]; tx_step;
      [reflexivity |];
      destruct (time.After (Time previous) (Time nickData)); tx_step;
      [reflexivity |]
     | tx_step]);
    destruct (bolt.put_check (Id nickData) value); reflexivity.
Qed.

(** [Put] without the transaction machinery. *)
Lemma Put_eq (r : DB) (nickData : NickData) :
  Put r nickData =
  match Validate nickData with
  | Some _ => (r, Some InvalidNickDataErr)
  | None =>
      match json_Marshal nickData with
      | inl err =>
          (r, Some (errors_Wrap err "marshaling nick data failed"))
      | inr value =>
          if nick_conflict r nickData then (r, Some NickConflictErr)
          else
            match bolt.View r (getNickData (Id nickData)) with
            | inl e =>
                (r, Some (errors_Wrap
                            (errors_Wrap e
                               "error retrieving the previous nick data")
                            "update failed"))
            | inr previous =>
                if newer_present previous nickData then
                  (r, Some NewerNickDataPresentErr)
                else
                  match bolt.put_check (Id nickData) value with
                  | Some e =>
                      (r, Some (errors_Wrap
                                  (errors_Wrap e "nicks bucket put failed")
                                  "update failed"))
                  | None => (stored r nickData value, None)
                  end
            end
      end
  end.
Proof.
  unfold Put.
  destruct (Validate nickData); [reflexivity |].
  destruct (json_Marshal nickData) as [err | value]; [reflexivity |].
  unfold bolt.Update. rewrite Put_tx_run.
  destruct (nick_conflict r nickData); [reflexivity |].
  destruct (bolt.View r (getNickData (Id nickData))) as [e | previous];
    [reflexivity |].
  destruct (newer_present previous nickData); [reflexivity |].
  destruct (bolt.put_check (Id nickData) value); reflexivity.
Qed.

Lemma Get_eq (r : DB) (id : bytes) :
  Get r id =
  if node_ValidateId id then
    match nickdata r !! id with
    | Some v =>
        match json_Unmarshal v with
        | inl e => inl (errors_Wrap e "json unmarshal failed")
        | inr nickData => inr (Some nickData)
        end
    | None => inr None
    end
  else inl InvalidNodeIdErr.
Proof.
  unfold Get. rewrite View_getNickData.
  destruct (node_ValidateId id); reflexivity.
Qed.

(** A claim read back from where [Put] stored it. *)
Lemma Get_stored (r : DB) (nickData : NickData) (value : bytes) :
  Validate nickData = None ->
  json_Unmarshal value = inr nickData ->
  Get (stored r nickData value) (Id nickData) = inr (Some nickData).
Proof.
  intros Hv Hu. rewrite Get_eq, (Validate_ValidateId _ Hv).
  unfold stored. cbn [nickdata]. rewrite lookup_insert_eq, Hu. reflexivity.
Qed.

Lemma Get_stored_other (r : DB) (nickData : NickData) (value id : bytes) :
  id <> Id nickData ->
  Get (stored r nickData value) id = Get r id.
Proof.
  intros Hne. rewrite !Get_eq. unfold stored. cbn [nickdata].
  rewrite lookup_insert_ne by congruence. reflexivity.
Qed.

Lemma holds_nick_stored (r : DB) (nickData : NickData) (value : bytes) :
  Validate nickData = None ->
  json_Unmarshal value = inr nickData ->
  holds_nick (stored r nickData value) (Id nickData) (Nick nickData).
Proof.
  intros Hv Hu. exists nickData. split; [| reflexivity].
  apply Get_stored; assumption.
Qed.

Lemma holds_nick_stored_other (r : DB) (nickData : NickData)
      (value id : bytes) (nick : string) :
  id <> Id nickData ->
  holds_nick r id nick ->
  holds_nick (stored r nickData value) id nick.
Proof.
  intros Hne (c & Hget & Hnick). exists c.
  rewrite Get_stored_other by assumption. auto.
Qed.

(** [Put] on a claim that passes every check. *)
Lemma Put_accepted (r : DB) (nickData : NickData) (value : bytes) :
  Validate nickData = None ->
  json_Marshal nickData = inr value ->
  nick_conflict r nickData = false ->
  (exists previous,
      bolt.View r (getNickData (Id nickData)) = inr previous /\
      newer_present previous nickData = false) ->
  bolt.put_check (Id nickData) value = None ->
  Put r nickData = (stored r nickData value, None).
Proof.
  intros Hv Hm Hc (previous & Hp & Hn) Hk.
  rewrite Put_eq, Hv, Hm, Hc, Hp, Hn, Hk. reflexivity.
Qed.

(** A successful [Put] passed every check. *)
Lemma Put_nil_inv (r r' : DB) (nickData : NickData) :
  Put r nickData = (r', None) ->
  exists value,
    Validate nickData = None /\
    json_Marshal nickData = inr value /\
    nick_conflict r nickData = false /\
    bolt.put_check (Id nickData) value = None /\
    r' = stored r nickData value.
Proof.
  rewrite Put_eq.
  destruct (Validate nickData) eqn:Hv; [discriminate |].
  destruct (json_Marshal nickData) as [e | value] eqn:Hm; [discriminate |].
  destruct (nick_conflict r nickData) eqn:Hc; [discriminate |].
  destruct (bolt.View r (getNickData (Id nickData))) as [e | previous];
    [discriminate |].
  destruct (newer_present previous nickData); [discriminate |].
  destruct (bolt.put_check (Id nickData) value) eqn:Hk; [discriminate |].
  intros [= <-]. exists value. auto.
Qed.

Lemma Put_nil_previous (r r' : DB) (nickData : NickData) :
  Put r nickData = (r', None) ->
  exists previous,
    bolt.View r (getNickData (Id nickData)) = inr previous /\
    newer_present previous nickData = false.
Proof.
  rewrite Put_eq.
  destruct (Validate nickData); [discriminate |].
  destruct (json_Marshal nickData) as [e | value]; [discriminate |].
  destruct (nick_conflict r nickData); [discriminate |].
  destruct (bolt.View r (getNickData (Id nickData))) as [e | previous];
    [discriminate |].
  destruct (newer_present previous nickData) eqn:Hn; [discriminate |].
  intros _. exists previous. auto.
Qed.

(** A failed [Put] leaves the contents as they were. *)
Lemma Put_error_unchanged (r r' : DB) (nickData : NickData) (e : error) :
  Put r nickData = (r', Some e) -> r' = r.
Proof.
  rewrite Put_eq.
  repeat match goal with
         | |- context [match ?x with _ => _ end] => destruct x
         end; congruence.
Qed.

(** ** What every history leaves in the buckets *)

Lemma buckets_by_id_step (r : DB) (o : op) :
  buckets_by_id r -> buckets_by_id (step r o).
Proof.
  intros [Heq Hent]. destruct o as [| nickData | id |]; simpl;
    try (split; assumption).
  destruct (Put r nickData) as [r' [e |]] eqn:HPut; simpl.
  - apply Put_error_unchanged in HPut. subst r'. split; assumption.
  - apply Put_nil_inv in HPut as (value & Hv & Hm & _ & _ & ->).
    unfold stored. split; cbn [nickdata nicks].
    + rewrite Heq. reflexivity.
    + intros key value' Hl.
      destruct (decide (Id nickData = key)) as [<- | Hne].
      * rewrite lookup_insert_eq in Hl. injection Hl as <-.
        exists nickData. auto.
      * rewrite lookup_insert_ne in Hl by assumption. eauto.
Qed.

Lemma reachable_buckets_by_id (r : DB) : reachable r -> buckets_by_id r.
Proof.
  intros [history <-]. unfold run.
  induction history as [| o history IH] using rev_ind.
  - split; [reflexivity |]. intros key value Hl.
    cbn [fold_left NewBoltRepository nickdata] in Hl.
    rewrite lookup_empty in Hl. discriminate.
  - rewrite fold_left_app. simpl. apply buckets_by_id_step. exact IH.
Qed.

Lemma length_list_byte_of_string (s : string) :
  List.length (list_byte_of_string s) = String.length s.
Proof.
  unfold list_byte_of_string.
  rewrite length_map. apply length_list_ascii_of_string.
Qed.

(** When identities are longer than nicknames may be, the lookup under
    the nick never finds an entry, and the first check of [Put_tx] never
    fires. *)
Lemma nick_conflict_never_fires (r : DB) (nickData : NickData) :
  (forall id, node_ValidateId id = true -> maxNickLength < len id) ->
  reachable r ->
  Validate nickData = None ->
  nicks r !! list_byte_of_string (Nick nickData) = None /\
  nick_conflict r nickData = false.
Proof.
  intros Hlong Hr Hv.
  assert (Hnone : nicks r !! list_byte_of_string (Nick nickData) = None).
  { apply reachable_buckets_by_id in Hr as [Heq Hent].
    destruct (nicks r !! list_byte_of_string (Nick nickData)) as [v |]
      eqn:Hl; [| reflexivity].
    rewrite Heq in Hl. apply Hent in Hl as (c & Hvc & _ & Hid).
    apply Validate_ValidateId, Hlong in Hvc.
    apply Validate_ValidateNick in Hv.
    apply ValidateNick_length in Hv.
    rewrite Hid in Hvc. unfold len, len_string in *.
    rewrite length_list_byte_of_string in Hvc. lia. }
  split; [assumption |]. unfold nick_conflict. rewrite Hnone. reflexivity.
Qed.
End RepositoryFacts.

(** ** The repository: [Put] and [Get] *)

Section RepositoryClaims.
Context `{External}.

Lemma After_before (t u : time.Time) :
  time.After t u = true <-> time.before u t.
Proof.
  unfold time.After, time.before.
  rewrite orb_true_iff, andb_true_iff, !Z.ltb_lt, Z.eqb_eq. lia.
Qed.

Lemma After_irrefl (t : time.Time) : time.After t t = false.
Proof.
  apply not_true_is_false. rewrite After_before.
  unfold time.before. lia.
Qed.

Lemma Get_View (r : DB) (nickData : NickData) :
  Validate nickData = None ->
  Get r (Id nickData) = bolt.View r (getNickData (Id nickData)).
Proof.
  intros Hv. unfold Get. rewrite (Validate_ValidateId _ Hv). reflexivity.
Qed.

Lemma Put_accesses_eq (r : DB) (nickData : NickData) :
  let read_nick :=
    ReadKey nicksBucket (list_byte_of_string (Nick nickData)) in
  let read_id := ReadKey nickDataBucket (Id nickData) in
  Put_accesses r nickData =
  match Validate nickData, json_Marshal nickData with
  | None, inr value =>
      if nick_conflict r nickData then [read_nick]
      else
        match bolt.View r (getNickData (Id nickData)) with
        | inl _ => [read_nick; read_id]
        | inr previous =>
            if newer_present previous nickData then [read_nick; read_id]
            else
              match bolt.put_check (Id nickData) value with
              | Some _ => [read_nick; read_id]
              | None =>
                  [read_nick; read_id;
                   WriteKey nicksBucket (Id nickData) value;
                   WriteKey nickDataBucket (Id nickData) value]
              end
        end
  | _, _ => []
  end.
Proof.
  intros read_nick read_id. unfold Put_accesses.
  destruct (Validate nickData); [reflexivity |].
  destruct (json_Marshal nickData) as [e | value]; [reflexivity |].
  unfold bolt.accesses. rewrite Put_tx_run.
  destruct (nick_conflict r nickData); [reflexivity |].
  destruct (bolt.View r (getNickData (Id nickData))) as [e | previous];
    [reflexivity |].
  destruct (newer_present previous nickData); [reflexivity |].
  destruct (bolt.put_check (Id nickData) value); reflexivity.
Qed.

(** C7. [Put] of a claim that fails [Validate] returns
    [InvalidNickDataErr] and leaves the contents unchanged, in every
    state, whatever else holds of the claim there; for a valid claim a
    conflict on the nick is reported before a newer stored claim, and a
    newer stored claim before an error of the store. *)
Theorem Put_invalid_claim_first (r : DB) (nickData : NickData) :
  (Validate nickData <> None ->
   Put r nickData = (r, Some InvalidNickDataErr)) /\
  (forall value,
      Validate nickData = None ->
      json_Marshal nickData = inr value ->
      nick_conflict r nickData = true ->
      Put r nickData = (r, Some NickConflictErr)) /\
  (forall value previous,
      Validate nickData = None ->
      json_Marshal nickData = inr value ->
      nick_conflict r nickData = false ->
      Get r (Id nickData) = inr (Some previous) ->
      time.After (Time previous) (Time nickData) = true ->
      Put r nickData = (r, Some NewerNickDataPresentErr)).
Proof.
  split; [| split].
  - intros Hv. rewrite Put_eq.
    destruct (Validate nickData); [reflexivity | congruence].
  - intros value Hv Hm Hc. rewrite Put_eq, Hv, Hm, Hc. reflexivity.
  - intros value previous Hv Hm Hc Hp Hn.
    rewrite (Get_View _ _ Hv) in Hp.
    rewrite Put_eq, Hv, Hm, Hc, Hp. cbn [newer_present].
    rewrite Hn. reflexivity.
Qed.

(** C8. [Get] returns [InvalidNodeIdErr] for an id that fails
    [node.ValidateId]; for any other id it returns nil without an error
    when no entry is stored under the id, as in a new database, and the
    claim stored under the id otherwise, which is the claim [Put] stored
    there. *)
Theorem Get_result (r : DB) (id : bytes) :
  (node_ValidateId id = false -> Get r id = inl InvalidNodeIdErr) /\
  (node_ValidateId id = true ->
   Get (NewBoltRepository None) id = inr None /\
   (nickdata r !! id = None -> Get r id = inr None) /\
   (forall value nickData,
       nickdata r !! id = Some value ->
       json_Unmarshal value = inr nickData ->
       Get r id = inr (Some nickData))) /\
  (forall nickData value r',
      id = Id nickData ->
      Put r nickData = (r', None) ->
      json_Marshal nickData = inr value ->
      json_Unmarshal value = inr nickData ->
      Get r' id = inr (Some nickData)).
Proof.
  split; [| split].
  - intros Hid. rewrite Get_eq, Hid. reflexivity.
  - intros Hid. rewrite !Get_eq, Hid. split; [| split].
    + cbn [NewBoltRepository nickdata]. rewrite lookup_empty. reflexivity.
    + intros ->. reflexivity.
    + intros value nickData -> ->. reflexivity.
  - intros nickData value r' -> HPut Hm Hu.
    apply Put_nil_inv in HPut as (value' & Hv & Hm' & _ & _ & ->).
    assert (value' = value) as -> by congruence.
    apply Get_stored; assumption.
Qed.

(** C10. Every write of [Put] has the claim's id as its key and the
    marshaled claim as its value, the read of the nicks bucket has the
    bytes of the claim's nick as its key; a successful [Put] reads the
    nicks bucket under the nick, the nick data bucket under the id, and
    then writes the same value under the id into both buckets. *)
Theorem Put_writes_both_buckets_under_Id (r : DB) (nickData : NickData) :
  (forall a,
      In a (Put_accesses r nickData) ->
      match a with
      | ReadKey nicksBucket key =>
          key = list_byte_of_string (Nick nickData)
      | ReadKey nickDataBucket key => key = Id nickData
      | WriteKey _ key value =>
          key = Id nickData /\ json_Marshal nickData = inr value
      end) /\
  (forall r',
      Put r nickData = (r', None) ->
      exists value,
        json_Marshal nickData = inr value /\
        Put_accesses r nickData =
        [ReadKey nicksBucket (list_byte_of_string (Nick nickData));
         ReadKey nickDataBucket (Id nickData);
         WriteKey nicksBucket (Id nickData) value;
         WriteKey nickDataBucket (Id nickData) value] /\
        nicks r' = <[Id nickData := value]> (nicks r) /\
        nickdata r' = <[Id nickData := value]> (nickdata r)).
Proof.
  split.
  - intros a. rewrite Put_accesses_eq.
    destruct (Validate nickData); [intros [] |].
    destruct (json_Marshal nickData) as [e | value]; [intros [] |].
    destruct (nick_conflict r nickData);
      [| destruct (bolt.View r (getNickData (Id nickData)))
           as [e | previous];
         [| destruct (newer_present previous nickData);
            [| destruct (bolt.put_check (Id nickData) value)]]];
      simpl; intros Ha;
      repeat (destruct Ha as [<- | Ha]; [auto |]); destruct Ha.
  - intros r' HPut.
    destruct (Put_nil_previous _ _ _ HPut) as (previous & Hp & Hn).
    apply Put_nil_inv in HPut as (value & Hv & Hm & Hc & Hk & ->).
    exists value. split; [assumption |]. split; [| split; reflexivity].
    rewrite Put_accesses_eq, Hv, Hm, Hc, Hp, Hn, Hk. reflexivity.
Qed.

Lemma nick_conflict_stored (r : DB) (c nickData : NickData)
      (value : bytes) :
  Id c <> list_byte_of_string (Nick nickData) ->
  nick_conflict (stored r c value) nickData = nick_conflict r nickData.
Proof.
  intros Hne. unfold nick_conflict, stored. cbn [nicks].
  rewrite lookup_insert_ne by assumption. reflexivity.
Qed.

Lemma stored_stored (r : DB) (nickData : NickData) (value : bytes) :
  stored (stored r nickData value) nickData value = stored r nickData value.
Proof.
  unfold stored. cbn [nickdata nicks].
  rewrite !insert_insert_eq. reflexivity.
Qed.

(** C4, amended. For a valid claim that [json.Marshal] encodes, whose id
    has a stored claim and whose nick raises no conflict (the check that
    runs before the one of the times), [Put] returns
    [NewerNickDataPresentErr] exactly when the time of the new claim is
    strictly before the time of the stored one, and the contents are
    unchanged then; a claim with an equal or a later time, when bolt
    accepts its key and value, is stored in place of the old one, and a
    claim that was stored can be put again.  A claim that [json.Marshal]
    refuses is not covered: [Put] returns the wrapped error of
    [json.Marshal] for it before any time is compared. *)
Theorem Put_freshness (r : DB) (nickData previous : NickData)
        (value : bytes) :
  Validate nickData = None ->
  json_Marshal nickData = inr value ->
  nick_conflict r nickData = false ->
  Get r (Id nickData) = inr (Some previous) ->
  (snd (Put r nickData) = Some NewerNickDataPresentErr <->
   time.before (Time nickData) (Time previous)) /\
  (time.before (Time nickData) (Time previous) -> fst (Put r nickData) = r)
  /\
  (~ time.before (Time nickData) (Time previous) ->
   bolt.put_check (Id nickData) value = None ->
   Put r nickData = (stored r nickData value, None) /\
   nickdata (stored r nickData value) !! Id nickData = Some value /\
   (json_Unmarshal value = inr nickData ->
    Get (stored r nickData value) (Id nickData) = inr (Some nickData) /\
    (Id nickData <> list_byte_of_string (Nick nickData) ->
     Put (stored r nickData value) nickData
     = (stored r nickData value, None)))).
Proof.
  intros Hv Hm Hc Hp.
  pose proof (Put_eq r nickData) as HPut.
  rewrite (Get_View _ _ Hv) in Hp.
  rewrite Hv, Hm, Hc, Hp in HPut. cbn [newer_present] in HPut.
  destruct (time.After (Time previous) (Time nickData)) eqn:Ha.
  - apply After_before in Ha. rewrite HPut. cbn [fst snd].
    split; [tauto |]. split; [reflexivity | contradiction].
  - assert (Hnb : ~ time.before (Time nickData) (Time previous)).
    { rewrite <- After_before. congruence. }
    split; [| split; [contradiction |]].
    + rewrite HPut.
      destruct (bolt.put_check (Id nickData) value); cbn [snd];
        split; (discriminate || contradiction).
    + intros _ Hk. rewrite Hk in HPut.
      split; [assumption |].
      split; [unfold stored; cbn [nickdata]; apply lookup_insert_eq |].
      intros Hu. split; [apply Get_stored; assumption |].
      intros Hne.
      rewrite <- (stored_stored r nickData value) at 2.
      apply Put_accepted; try assumption.
      * rewrite nick_conflict_stored; assumption.
      * exists (Some nickData). split.
        -- rewrite <- (Get_View _ _ Hv). apply Get_stored; assumption.
        -- apply After_irrefl.
Qed.

(** ** A nick taken by another identity *)

(** Two storable claims put one after the other on a new database are
    both accepted, whatever their nicks. *)
Lemma Put_two_identities (a b : NickData) (va vb : bytes) :
  storable a va -> storable b vb ->
  Nick a = Nick b -> Id a <> Id b ->
  let r1 := stored (NewBoltRepository None) a va in
  let r2 := stored r1 b vb in
  Put (NewBoltRepository None) a = (r1, None) /\
  Put r1 b = (r2, None) /\
  holds_nick r2 (Id a) (Nick a) /\
  holds_nick r2 (Id b) (Nick a) /\
  nicks r2 !! list_byte_of_string (Nick a) = None.
Proof.
  intros (Hva & Hma & Hua & Hka & Hna) (Hvb & Hmb & Hub & Hkb & Hnb)
         Hnick Hid r1 r2.
  assert (HPa : Put (NewBoltRepository None) a = (r1, None)).
  { apply Put_accepted; try assumption.
    - unfold nick_conflict. cbn [NewBoltRepository nicks].
      rewrite lookup_empty. reflexivity.
    - exists None. split; [| reflexivity].
      rewrite View_getNickData. cbn [NewBoltRepository nickdata].
      rewrite lookup_empty. reflexivity. }
  assert (HPb : Put r1 b = (r2, None)).
  { apply Put_accepted; try assumption.
    - unfold r1. rewrite nick_conflict_stored by congruence.
      unfold nick_conflict. cbn [NewBoltRepository nicks].
      rewrite lookup_empty. reflexivity.
    - exists None. split; [| reflexivity].
      rewrite View_getNickData. unfold r1, stored.
      cbn [NewBoltRepository nickdata].
      rewrite lookup_insert_ne by assumption.
      rewrite lookup_empty. reflexivity. }
  split; [assumption |]. split; [assumption |].
  split; [| split].
  - apply holds_nick_stored_other; [assumption |].
    apply holds_nick_stored; assumption.
  - rewrite Hnick. apply holds_nick_stored; assumption.
  - unfold r2, r1, stored. cbn [NewBoltRepository nicks].
    rewrite lookup_insert_ne by congruence.
    rewrite lookup_insert_ne by congruence.
    apply lookup_empty.
Qed.

(** When identities are longer than nicknames may be, no call of [Put]
    in any history returns [NickConflictErr]. *)
Lemma Put_never_NickConflictErr (r : DB) (nickData : NickData) :
  (forall id, node_ValidateId id = true -> maxNickLength < len id) ->
  reachable r ->
  snd (Put r nickData) <> Some NickConflictErr.
Proof.
  intros Hlong Hr. rewrite Put_eq.
  destruct (Validate nickData) eqn:Hv; [discriminate |].
  destruct (nick_conflict_never_fires r nickData Hlong Hr Hv) as [_ ->].
  destruct (json_Marshal nickData) as [e | value]; [discriminate |].
  destruct (bolt.View r (getNickData (Id nickData))) as [e | previous];
    [discriminate |].
  destruct (newer_present previous nickData); [discriminate |].
  destruct (bolt.put_check (Id nickData) value); discriminate.
Qed.

(** C1. A state in which identity [idA] holds the nick of the claim [b]
    of another identity, with no entry under the bytes of that nick in
    the nicks bucket (as in every state [Put] produces from a new
    database when no id is the byte string of a nick): [Put] accepts [b];
    it does not return [NickConflictErr], the contents change, and the
    nick is then held by both identities. *)
Theorem Put_taken_nick_other_identity (r : DB) (idA : bytes)
        (b : NickData) (value : bytes) :
  holds_nick r idA (Nick b) ->
  Id b <> idA ->
  storable b value ->
  nicks r !! list_byte_of_string (Nick b) = None ->
  nickdata r !! Id b = None ->
  Put r b = (stored r b value, None) /\
  snd (Put r b) <> Some NickConflictErr /\
  stored r b value <> r /\
  holds_nick (stored r b value) idA (Nick b) /\
  holds_nick (stored r b value) (Id b) (Nick b).
Proof.
  intros Ha Hid (Hv & Hm & Hu & Hk & Hn) Hnone Hnew.
  assert (HPut : Put r b = (stored r b value, None)).
  { apply Put_accepted; try assumption.
    - unfold nick_conflict. rewrite Hnone. reflexivity.
    - exists None. split; [| reflexivity].
      rewrite View_getNickData, Hnew. reflexivity. }
  split; [assumption |]. rewrite HPut. cbn [snd].
  split; [discriminate |]. split; [| split].
  - intros Heq. apply (f_equal (fun d => nickdata d !! Id b)) in Heq.
    unfold stored in Heq. cbn [nickdata] in Heq.
    rewrite lookup_insert_eq, Hnew in Heq. discriminate.
  - apply holds_nick_stored_other; [congruence | assumption].
  - apply holds_nick_stored; assumption.
Qed.

(** C2. A history of calls on a new database after which two identities
    hold the same nickname, while the nicks bucket has no entry under
    that nickname: the claims [a] and [b] of two identities with one
    nick, put one after the other. *)
Theorem reachable_nick_held_twice (a b : NickData) (va vb : bytes) :
  storable a va -> storable b vb ->
  Nick a = Nick b -> Id a <> Id b ->
  let r := run [OpOpen; OpPut a; OpGet (Id a); OpPut b; OpList] in
  reachable r /\
  holds_nick r (Id a) (Nick a) /\
  holds_nick r (Id b) (Nick a) /\
  nicks r !! list_byte_of_string (Nick a) = None.
Proof.
  intros Ha Hb Hnick Hid r.
  destruct (Put_two_identities a b va vb Ha Hb Hnick Hid)
    as (HPa & HPb & Hha & Hhb & Hnone).
  assert (Hr : r = stored (stored (NewBoltRepository None) a va) b vb).
  { unfold r, run. cbn [fold_left step].
    change (NewBoltRepository (Some (NewBoltRepository None)))
      with (NewBoltRepository None).
    rewrite HPa. cbn [fst]. rewrite HPb. reflexivity. }
  split; [exists [OpOpen; OpPut a; OpGet (Id a); OpPut b; OpList];
          reflexivity |].
  rewrite Hr. auto.
Qed.

(** C9. Two calls of [Put] that race on one nick from two identities, on
    a new database: in whichever order bolt runs their transactions,
    both return nil and both claims are stored. *)
Theorem racing_puts_both_commit (a b : NickData) (va vb : bytes) :
  storable a va -> storable b vb ->
  Nick a = Nick b -> Id a <> Id b ->
  forall calls,
    Permutation [a; b] calls ->
    exists r,
      run_puts (NewBoltRepository None) calls = (r, [None; None]) /\
      holds_nick r (Id a) (Nick a) /\
      holds_nick r (Id b) (Nick a).
Proof.
  intros Ha Hb Hnick Hid calls Hperm.
  apply Permutation_length_2_inv in Hperm as [-> | ->].
  - destruct (Put_two_identities a b va vb Ha Hb Hnick Hid)
      as (HPa & HPb & Hha & Hhb & _).
    eexists. cbn [run_puts]. rewrite HPa, HPb. eauto.
  - destruct (Put_two_identities b a vb va Hb Ha (eq_sym Hnick)
                                 (not_eq_sym Hid))
      as (HPb & HPa & Hhb & Hha & _).
    eexists. cbn [run_puts]. rewrite HPb, HPa.
    rewrite <- Hnick in Hhb, Hha. eauto.
Qed.
End RepositoryClaims.

(** ** The tests of the package, run on the model *)

Example TestValidateNick :
  forallb fixture.nick_test_passes fixture.validateNickTestCases = true.
Proof. vm_compute. reflexivity. Qed.

Example TestNickDataValidateValid :
  @Validate fixture.external fixture.claimA = None.
Proof. vm_compute. reflexivity. Qed.

Example TestNickDataValidateInvalidNick :
  @Validate fixture.external fixture.claimA_invalid
  = Some (errors_Wrap
            (errors_New "nick needs to be at least 3 characters long")
            "invalid nick").
Proof. vm_compute. reflexivity. Qed.

Example TestBoltRepositoryGetEmpty :
  @Get fixture.external (NewBoltRepository None) fixture.idA = inr None.
Proof. vm_compute. reflexivity. Qed.

Example TestBoltRepositoryPutGet :
  snd (@Put fixture.external (NewBoltRepository None) fixture.claimA) = None
  /\ @Get fixture.external fixture.after_A fixture.idA
     = inr (Some fixture.claimA).
Proof. split; vm_compute; reflexivity. Qed.

Example TestBoltRepositoryPutInvalid :
  snd (@Put fixture.external (NewBoltRepository None) fixture.claimA_invalid)
  = Some InvalidNickDataErr.
Proof. vm_compute. reflexivity. Qed.

Example TestBoltRepositoryPutOlder :
  snd (@Put fixture.external fixture.after_A fixture.claimA_older)
  = Some NewerNickDataPresentErr.
Proof. vm_compute. reflexivity. Qed.

Example TestBoltRepositoryListEmpty :
  @List fixture.external (NewBoltRepository None) = inr [].
Proof. vm_compute. reflexivity. Qed.

Example TestBoltRepositoryListOneElement :
  @List fixture.external fixture.after_A = inr [fixture.claimA].
Proof. vm_compute. reflexivity. Qed.

(** ** The theorems at the fixtures *)

(** Decide a closed statement about the fixtures by evaluation. *)
Ltac by_eval := vm_compute; first [reflexivity | discriminate | congruence].
Ltac storable_by_eval := repeat split; by_eval.

(** [TestBoltRepositoryPutInvalid], a claim for a nick recorded for another
    id, and [TestBoltRepositoryPutOlder]. *)
Lemma Put_invalid_claim_first_witness :
  @Put fixture.external fixture.after_A fixture.claimA_invalid
  = (fixture.after_A, Some InvalidNickDataErr) /\
  @Put fixture.external fixture.nick_to_id_A fixture.claimB
  = (fixture.nick_to_id_A, Some NickConflictErr) /\
  @Put fixture.external fixture.after_A fixture.claimA_older
  = (fixture.after_A, Some NewerNickDataPresentErr).
Proof.
  split; [| split].
  - apply (@Put_invalid_claim_first fixture.external). by_eval.
  - apply (proj1 (proj2 (@Put_invalid_claim_first fixture.external
                           fixture.nick_to_id_A fixture.claimB))
             (fixture.encode fixture.claimB)); by_eval.
  - apply (proj2 (proj2 (@Put_invalid_claim_first fixture.external
                           fixture.after_A fixture.claimA_older))
             (fixture.encode fixture.claimA_older) fixture.claimA); by_eval.
Defined.

(** [TestBoltRepositoryGetEmpty] and [TestBoltRepositoryPutGet]. *)
Lemma Get_result_witness :
  @Get fixture.external fixture.after_A [] = inl InvalidNodeIdErr /\
  @Get fixture.external (@NewBoltRepository None) fixture.idA = inr None /\
  @Get fixture.external fixture.after_A fixture.idB = inr None /\
  @Get fixture.external fixture.after_A fixture.idA
  = inr (Some fixture.claimA).
Proof.
  split; [| split; [| split]].
  - apply (@Get_result fixture.external). by_eval.
  - apply (proj1 (proj2 (@Get_result fixture.external fixture.after_A
                           fixture.idA))). by_eval.
  - apply (proj1 (proj2 (@Get_result fixture.external fixture.after_A
                           fixture.idB))); by_eval.
  - apply (proj2 (proj2 (@Get_result fixture.external
                           (@NewBoltRepository None) fixture.idA))
             fixture.claimA (fixture.encode fixture.claimA)); by_eval.
Defined.

(** The accesses of [Put(claimB)] after [Put(claimA)]. *)
Lemma Put_writes_both_buckets_under_Id_witness :
  exists value,
    @json_Marshal fixture.external fixture.claimB = inr value /\
    @Put_accesses fixture.external fixture.after_A fixture.claimB =
    [ReadKey nicksBucket (list_byte_of_string "nick");
     ReadKey nickDataBucket fixture.idB;
     WriteKey nicksBucket fixture.idB value;
     WriteKey nickDataBucket fixture.idB value].
Proof.
  destruct (proj2 (@Put_writes_both_buckets_under_Id fixture.external
                     fixture.after_A fixture.claimB)
              (stored fixture.after_A fixture.claimB
                      (fixture.encode fixture.claimB))
              ltac:(by_eval))
    as (value & Hm & Hacc & _).
  exists value. split; [exact Hm | exact Hacc].
Defined.

(** [TestBoltRepositoryPutOlder], and the same with a later time. *)
Lemma Put_freshness_witness :
  snd (@Put fixture.external fixture.after_A fixture.claimA_older)
  = Some NewerNickDataPresentErr /\
  @Put fixture.external fixture.after_A fixture.claimA_newer
  = (stored fixture.after_A fixture.claimA_newer
            (fixture.encode fixture.claimA_newer), None) /\
  @Put fixture.external fixture.after_A fixture.claimA
  = (stored fixture.after_A fixture.claimA
            (fixture.encode fixture.claimA), None).
Proof.
  split; [| split].
  - apply (@Put_freshness fixture.external fixture.after_A
             fixture.claimA_older fixture.claimA
             (fixture.encode fixture.claimA_older));
      try by_eval.
    left. vm_compute. reflexivity.
  - apply (@Put_freshness fixture.external fixture.after_A
             fixture.claimA_newer fixture.claimA
             (fixture.encode fixture.claimA_newer));
      try by_eval.
    intros [Hlt | [Heq _]]; vm_compute in *; discriminate.
  - apply (@Put_freshness fixture.external fixture.after_A
             fixture.claimA fixture.claimA
             (fixture.encode fixture.claimA));
      try by_eval.
    intros [Hlt | [_ Hlt]]; vm_compute in *; discriminate.
Defined.

(** C4, as the claim words it, fails: with a [json.Marshal] that refuses
    the year 10000, A's claim of 1990 is stored; the claim of A for the
    year 10000 is valid and its time is after the stored one, yet [Put]
    returns neither nil nor [NewerNickDataPresentErr] but the error of
    [json.Marshal] wrapped, and the stored claim is still the one of
    1990. *)
Lemma Put_later_claim_not_stored :
  @Get json_time.external json_time.after_A
     (Id json_time.claimA_year_10000) = inr (Some fixture.claimA) /\
  @Validate json_time.external json_time.claimA_year_10000 = None /\
  time.before (Time fixture.claimA) (Time json_time.claimA_year_10000) /\
  @Put json_time.external json_time.after_A json_time.claimA_year_10000
  = (json_time.after_A,
     Some (errors_Wrap
             (errors_New
                ("json: error calling MarshalJSON for type time.Time: "
                 +:+ "Time.MarshalJSON: year outside of range [0,9999]"))
             "marshaling nick data failed")) /\
  @Get json_time.external
     (fst (@Put json_time.external json_time.after_A
             json_time.claimA_year_10000))
     (Id json_time.claimA_year_10000) = inr (Some fixture.claimA).
Proof.
  split; [by_eval |]. split; [by_eval |].
  split; [left; vm_compute; reflexivity |].
  split; by_eval.
Qed.

(** The check of the nick comes before the one of the times: in a
    database file whose nicks bucket holds the id of B under the nick,
    both the older and the newer claim of A get [NickConflictErr]. *)
Example Put_conflict_before_times :
  let r := mkDB {[ fixture.idA := fixture.encode fixture.claimA ]}
                {[ list_byte_of_string "nick" := fixture.idB ]} in
  @Get fixture.external r fixture.idA = inr (Some fixture.claimA) /\
  @Put fixture.external r fixture.claimA_older = (r, Some NickConflictErr) /\
  @Put fixture.external r fixture.claimA_newer = (r, Some NickConflictErr).
Proof. repeat split; by_eval. Qed.

(** [claimB] put after [claimA], which bears the same nick. *)
Lemma Put_taken_nick_other_identity_witness :
  @Put fixture.external fixture.after_A fixture.claimB
  = (stored fixture.after_A fixture.claimB (fixture.encode fixture.claimB),
     None) /\
  @holds_nick fixture.external
    (stored fixture.after_A fixture.claimB (fixture.encode fixture.claimB))
    fixture.idA "nick" /\
  @holds_nick fixture.external
    (stored fixture.after_A fixture.claimB (fixture.encode fixture.claimB))
    fixture.idB "nick".
Proof.
  destruct (@Put_taken_nick_other_identity fixture.external fixture.after_A
              fixture.idA fixture.claimB (fixture.encode fixture.claimB))
    as (HPut & _ & _ & HA & HB).
  - exists fixture.claimA. split; by_eval.
  - by_eval.
  - storable_by_eval.
  - by_eval.
  - by_eval.
  - split; [exact HPut |]. split; [exact HA | exact HB].
Defined.

(** [claimA] and [claimB] in a history on a new database. *)
Lemma reachable_nick_held_twice_witness :
  let r := @run fixture.external
             [OpOpen; OpPut fixture.claimA; OpGet fixture.idA;
              OpPut fixture.claimB; OpList] in
  @reachable fixture.external r /\
  @holds_nick fixture.external r fixture.idA "nick" /\
  @holds_nick fixture.external r fixture.idB "nick" /\
  nicks r !! list_byte_of_string "nick" = None.
Proof.
  apply (@reachable_nick_held_twice fixture.external fixture.claimA
           fixture.claimB (fixture.encode fixture.claimA)
           (fixture.encode fixture.claimB));
    first [storable_by_eval | by_eval].
Defined.

(** [claimB] granted its transaction before [claimA]. *)
Lemma racing_puts_both_commit_witness :
  exists r,
    @run_puts fixture.external (@NewBoltRepository None)
      [fixture.claimB; fixture.claimA] = (r, [None; None]) /\
    @holds_nick fixture.external r fixture.idA "nick" /\
    @holds_nick fixture.external r fixture.idB "nick".
Proof.
  apply (@racing_puts_both_commit fixture.external fixture.claimA
           fixture.claimB (fixture.encode fixture.claimA)
           (fixture.encode fixture.claimB));
    first [apply perm_swap | storable_by_eval | by_eval].
Defined.

(** ** Further properties of the repository *)

Section RepositoryHistories.
Context `{External}.

(** X1. Whatever [Put] returns: with nil the contents are the old ones with
    the marshaled claim written under the claim's id in both buckets; with
    an error the contents are the old ones, and the error is one of the
    three sentinel values of [Put] or a wrapped error of [json.Marshal] or
    of the transaction. *)
Theorem Put_outcome (r r' : DB) (nickData : NickData) (err : option error) :
  Put r nickData = (r', err) ->
  match err with
  | None =>
      exists value,
        json_Marshal nickData = inr value /\ r' = stored r nickData value
  | Some e =>
      r' = r /\
      (e = InvalidNickDataErr \/ e = NickConflictErr \/
       e = NewerNickDataPresentErr \/
       exists cause,
         e = errors_Wrap cause "marshaling nick data failed" \/
         e = errors_Wrap cause "update failed")
  end.
Proof.
  rewrite Put_eq.
  destruct (Validate nickData).
  { intros [= <- <-]. auto. }
  destruct (json_Marshal nickData) as [cause | value].
  { intros [= <- <-]. split; [reflexivity |]. do 3 right. eauto. }
  destruct (nick_conflict r nickData).
  { intros [= <- <-]. auto. }
  destruct (bolt.View r (getNickData (Id nickData))) as [cause | previous].
  { intros [= <- <-]. split; [reflexivity |]. do 3 right. eauto. }
  destruct (newer_present previous nickData).
  { intros [= <- <-]. auto 6. }
  destruct (bolt.put_check (Id nickData) value) as [cause |].
  { intros [= <- <-]. split; [reflexivity |]. do 3 right. eauto. }
  intros [= <- <-]. eauto.
Qed.

Lemma step_lookup (r : DB) (o : op) (key : bytes) :
  step r o = r \/
  exists nickData value,
    o = OpPut nickData /\
    Put r nickData = (stored r nickData value, None) /\
    step r o = stored r nickData value.
Proof.
  destruct o as [| nickData | id |]; simpl; auto.
  destruct (Put r nickData) as [r' [e |]] eqn:HPut; simpl.
  - left. eapply Put_error_unchanged. exact HPut.
  - right. apply Put_nil_inv in HPut as Hinv.
    destruct Hinv as (value & _ & _ & _ & _ & ->). eauto.
Qed.

(** X2. No call removes an entry: an id that has an entry in the nick data
    bucket has one after any history of calls. *)
Theorem history_keeps_entries (history : list op) (r : DB) (key : bytes) :
  is_Some (nickdata r !! key) ->
  is_Some (nickdata (fold_left step history r) !! key).
Proof.
  revert r. induction history as [| o history IH]; intros r Hsome;
    [exact Hsome |].
  cbn [fold_left]. apply IH.
  destruct (step_lookup r o key)
    as [-> | (nickData & value & _ & _ & ->)]; [exact Hsome |].
  unfold stored. cbn [nickdata].
  destruct (decide (Id nickData = key)) as [-> | Hne].
  - rewrite lookup_insert_eq. eauto.
  - rewrite lookup_insert_ne by assumption. exact Hsome.
Qed.

(** X3. After any history of calls on a new database the two buckets hold
    the same entries, and each entry is the marshaled form of a claim that
    passes [Validate], stored under the id of that claim, with a key and a
    value that pass the checks of bolt. *)
Theorem reachable_entries_valid (r : DB) :
  reachable r ->
  nicks r = nickdata r /\
  forall key value,
    nickdata r !! key = Some value ->
    node_ValidateId key = true /\
    bolt.put_check key value = None /\
    exists nickData,
      Validate nickData = None /\
      json_Marshal nickData = inr value /\
      Id nickData = key.
Proof.
  intros [history <-]. unfold run.
  induction history as [| o history IH] using rev_ind.
  - split; [reflexivity |]. intros key value Hl.
    cbn [fold_left NewBoltRepository nickdata] in Hl.
    rewrite lookup_empty in Hl. discriminate.
  - rewrite fold_left_app. cbn [fold_left].
    set (r := fold_left step history (NewBoltRepository None)) in *.
    destruct IH as [Heq Hent].
    destruct (step_lookup r o [])
      as [-> | (nickData & value & _ & HPut & ->)]; [split; assumption |].
    apply Put_nil_inv in HPut as (value' & Hv & Hm & _ & Hk & Hst).
    assert (value' = value) as ->.
    { apply (f_equal (fun d => nickdata d !! Id nickData)) in Hst.
      unfold stored in Hst. cbn [nickdata] in Hst.
      rewrite !lookup_insert_eq in Hst. congruence. }
    unfold stored. cbn [nickdata nicks]. split; [congruence |].
    intros key value' Hl.
    destruct (decide (Id nickData = key)) as [<- | Hne].
    + rewrite lookup_insert_eq in Hl. injection Hl as <-.
      split; [apply Validate_ValidateId; assumption |].
      split; [assumption |]. eauto.
    + rewrite lookup_insert_ne in Hl by assumption. auto.
Qed.

(** X4. With a codec that reads back what it writes, after any history of
    calls on a new database [Get] returns no error for an id of the right
    format, and the claim it returns passes [Validate] and bears the id
    that was asked for. *)
Theorem Get_reachable (r : DB) (id : bytes) :
  json_round_trip ->
  reachable r ->
  (node_ValidateId id = true -> exists found, Get r id = inr found) /\
  (forall nickData,
      Get r id = inr (Some nickData) ->
      Validate nickData = None /\ Id nickData = id).
Proof.
  intros Hrt Hr. apply reachable_buckets_by_id in Hr as [_ Hent].
  rewrite Get_eq. split.
  - intros ->. destruct (nickdata r !! id) as [v |] eqn:Hl; [| eauto].
    destruct (Hent _ _ Hl) as (c & Hv & Hm & _).
    rewrite (Hrt _ _ Hv Hm). eauto.
  - intros nickData.
    destruct (node_ValidateId id); [| discriminate].
    destruct (nickdata r !! id) as [v |] eqn:Hl; [| discriminate].
    destruct (Hent _ _ Hl) as (c & Hv & Hm & Hid).
    rewrite (Hrt _ _ Hv Hm). intros [= <-]. auto.
Qed.

(** X5. With such a codec, the time stored for an identity never goes
    back: the claim [Get] returns for an id after any further history of
    calls is not older than the claim it returned before. *)
Theorem history_time_monotone (history : list op) (r : DB) (id : bytes)
        (previous : NickData) :
  json_round_trip ->
  Get r id = inr (Some previous) ->
  exists current,
    Get (fold_left step history r) id = inr (Some current) /\
    ~ time.before (Time current) (Time previous).
Proof.
  intros Hrt. revert r previous.
  induction history as [| o history IH]; intros r previous Hget.
  - exists previous. split; [exact Hget |]. unfold time.before. lia.
  - cbn [fold_left].
    assert (Hstep : exists next,
               Get (step r o) id = inr (Some next) /\
               ~ time.before (Time next) (Time previous)).
    { destruct (step_lookup r o id)
        as [-> | (nickData & value & _ & HPut & ->)].
      - exists previous. split; [exact Hget |]. unfold time.before. lia.
      - destruct (decide (id = Id nickData)) as [-> | Hne].
        + destruct (Put_nil_previous _ _ _ HPut) as (prev & Hp & Hn).
          apply Put_nil_inv in HPut as (value' & Hv & Hm & _ & _ & Hst).
          rewrite (Get_View _ _ Hv), Hp in Hget. injection Hget as ->.
          cbn [newer_present] in Hn.
          assert (value' = value) as ->.
          { apply (f_equal (fun d => nickdata d !! Id nickData)) in Hst.
            unfold stored in Hst. cbn [nickdata] in Hst.
            rewrite !lookup_insert_eq in Hst. congruence. }
          exists nickData. split.
          * apply Get_stored; [assumption |]. apply Hrt; assumption.
          * rewrite <- After_before. congruence.
        + exists previous. rewrite Get_stored_other by assumption.
          split; [exact Hget |]. unfold time.before. lia. }
    destruct Hstep as (next & Hnext & Hle).
    destruct (IH _ _ Hnext) as (current & Hcur & Hle').
    exists current. split; [exact Hcur |].
    unfold time.before in *. lia.
Qed.
End RepositoryHistories.

(** ** [List] *)

Section ListFacts.
Context `{External}.

(** The loop of [List] over the entries [l]: the claims decoded from the
    values, or the error of the first value that does not decode. *)
Lemma List_loop (l : list (bytes * bytes)) :
  match
    foldr (fun kv rest =>
             match unmarshalNickData kv.2 with
             | inl e => inl (errors_Wrap e "unmarshal failed")
             | inr nickData =>
                 match rest with
                 | inl e => inl e
                 | inr rv => inr (nickData :: rv)
                 end
             end)
          (inr []) l
  with
  | inr rv => Forall2 (fun kv c => json_Unmarshal kv.2 = inr c) l rv
  | inl e =>
      exists kv cause,
        kv ∈ l /\ json_Unmarshal kv.2 = inl cause /\
        e = errors_Wrap (errors_Wrap cause "json unmarshal failed")
                        "unmarshal failed"
  end.
Proof.
  induction l as [| kv l IH]; cbn [foldr]; [constructor |].
  unfold unmarshalNickData at 1, wrap_result.
  destruct (json_Unmarshal kv.2) as [cause | c] eqn:Hu.
  - exists kv, cause. split; [left | auto].
  - match goal with
    | |- context [foldr ?f ?a l] => destruct (foldr f a l) as [e | rv]
    end.
    + destruct IH as (kv' & cause & Hin & Hu' & ->).
      exists kv', cause. split; [right; assumption | auto].
    + constructor; assumption.
Qed.

Lemma List_loop_members (l : list (bytes * bytes)) (rv : list NickData) :
  Forall2 (fun kv c => json_Unmarshal kv.2 = inr c) l rv ->
  forall c,
    c ∈ rv <-> exists kv, kv ∈ l /\ json_Unmarshal kv.2 = inr c.
Proof.
  intros Hloop c. split.
  - intros Hc.
    destruct (proj1 (list_elem_of_lookup _ _) Hc) as [i Hi].
    destruct (Forall2_lookup_r _ _ _ _ _ Hloop Hi) as (kv & Hkv & Hu).
    exists kv. split; [apply list_elem_of_lookup; eauto | exact Hu].
  - intros (kv & Hl & Hu).
    destruct (proj1 (list_elem_of_lookup _ _) Hl) as [i Hi].
    destruct (Forall2_lookup_l _ _ _ _ _ Hloop Hi) as (c' & Hc' & Hu').
    assert (c' = c) as -> by congruence.
    apply list_elem_of_lookup. eauto.
Qed.

(** X6. [List] in any state: it returns an error exactly when some stored
    value does not decode, and the error is then the one [json.Unmarshal]
    gave for such a value, wrapped twice; otherwise every stored value
    decodes and the list is, entry by entry in some order of the entries
    of the nick data bucket, the claims decoded from the stored values:
    one claim for each entry and no other. *)
Theorem List_outcome (r : DB) :
  ((exists e, List r = inl e) <->
   exists key value cause,
     nickdata r !! key = Some value /\ json_Unmarshal value = inl cause) /\
  match List r with
  | inr rv =>
      (exists entries,
          entries ≡ₚ map_to_list (nickdata r) /\
          Forall2 (fun kv c => json_Unmarshal kv.2 = inr c) entries rv) /\
      (forall key value,
          nickdata r !! key = Some value ->
          exists c, json_Unmarshal value = inr c /\ c ∈ rv) /\
      length rv = size (nickdata r) /\
      forall c,
        c ∈ rv <->
        exists key value,
          nickdata r !! key = Some value /\ json_Unmarshal value = inr c
  | inl e =>
      exists key value cause,
        nickdata r !! key = Some value /\
        json_Unmarshal value = inl cause /\
        e = errors_Wrap (errors_Wrap cause "json unmarshal failed")
                        "unmarshal failed"
  end.
Proof.
  unfold List. pose proof (List_loop (map_to_list (nickdata r))) as Hloop.
  match goal with
  | |- context [foldr ?f ?a ?l] => destruct (foldr f a l) as [e | rv]
  end.
  - destruct Hloop as ([key value] & cause & Hin & Hu & ->).
    apply elem_of_map_to_list in Hin. split; [| eauto 6].
    split; [intros _; eauto | intros _; eauto].
  - assert (Hall : forall key value,
               nickdata r !! key = Some value ->
               exists c, json_Unmarshal value = inr c /\ c ∈ rv).
    { intros key value Hl. apply elem_of_map_to_list in Hl.
      destruct (proj1 (list_elem_of_lookup _ _) Hl) as [i Hi].
      destruct (Forall2_lookup_l _ _ _ _ _ Hloop Hi) as (c & Hc & Hu).
      exists c. split; [exact Hu | apply list_elem_of_lookup; eauto]. }
    split; [| split; [| split; [exact Hall | split]]].
    + split; [intros [e He]; discriminate |].
      intros (key & value & cause & Hl & Hu).
      destruct (Hall _ _ Hl) as (c & Hc & _). congruence.
    + exists (map_to_list (nickdata r)). split; [reflexivity | exact Hloop].
    + rewrite <- (Forall2_length Hloop). apply length_map_to_list.
    + intros c. rewrite (List_loop_members _ _ Hloop c). split.
      * intros ([key value] & Hin & Hu).
        apply elem_of_map_to_list in Hin. eauto.
      * intros (key & value & Hl & Hu). exists (key, value).
        split; [apply elem_of_map_to_list; exact Hl | exact Hu].
Qed.

(** After a history on a new database every stored value decodes. *)
Lemma List_decodes (r : DB) :
  json_round_trip ->
  reachable r ->
  exists rv,
    List r = inr rv /\
    Forall2 (fun kv c => json_Unmarshal kv.2 = inr c)
            (map_to_list (nickdata r)) rv.
Proof.
  intros Hrt Hr. apply reachable_buckets_by_id in Hr as [_ Hent].
  pose proof (List_loop (map_to_list (nickdata r))) as Hloop.
  unfold List in *.
  match goal with
  | |- context [foldr ?f ?a ?l] => destruct (foldr f a l) as [e | rv]
  end; [| eauto].
  destruct Hloop as ([key value] & cause & Hl & Hu & _).
  apply elem_of_map_to_list in Hl. cbn [snd] in Hu.
  destruct (Hent _ _ Hl) as (n & Hv & Hm & _).
  rewrite (Hrt _ _ Hv Hm) in Hu. discriminate.
Qed.

(** X7. With a codec that reads back what it writes, after any history of
    calls on a new database [List] returns no error; it lists each
    identity once, and a claim is listed exactly when [Get] returns it for
    its id. *)
Theorem List_reachable (r : DB) :
  json_round_trip ->
  reachable r ->
  exists rv,
    List r = inr rv /\
    length rv = size (nickdata r) /\
    NoDup (Id <$> rv) /\
    forall c, c ∈ rv <-> Get r (Id c) = inr (Some c).
Proof.
  intros Hrt Hr.
  destruct (List_decodes r Hrt Hr) as (rv & HList & Hloop).
  apply reachable_buckets_by_id in Hr as [_ Hent].
  assert (Hdec : forall key value c,
             nickdata r !! key = Some value ->
             json_Unmarshal value = inr c ->
             Validate c = None /\ Id c = key).
  { intros key value c Hl Hu.
    destruct (Hent _ _ Hl) as (n & Hv & Hm & Hid).
    rewrite (Hrt _ _ Hv Hm) in Hu. injection Hu as <-. auto. }
  exists rv. split; [exact HList |]. split; [| split].
  - rewrite <- (Forall2_length Hloop). apply length_map_to_list.
  - assert (Hkeys : Id <$> rv = (map_to_list (nickdata r)).*1).
    { assert (Hall : Forall (fun kv => nickdata r !! kv.1 = Some kv.2)
                            (map_to_list (nickdata r))).
      { apply Forall_forall. intros [key value] Hin.
        apply list_elem_of_In, elem_of_map_to_list in Hin. exact Hin. }
      revert Hall. clear HList.
      induction Hloop as [| kv c l rv' Hu _ IH]; intros Hall;
        [reflexivity |].
      inversion Hall as [| ? ? Hkv Hall']; subst.
      cbn [fmap list_fmap]. f_equal; [| apply IH; assumption].
      apply (Hdec _ _ _ Hkv Hu). }
    rewrite Hkeys. apply NoDup_fst_map_to_list.
  - intros c. rewrite (List_loop_members _ _ Hloop c), Get_eq. split.
    + intros ([key value] & Hin & Hu).
      apply elem_of_map_to_list in Hin. cbn [snd] in Hu.
      destruct (Hdec _ _ _ Hin Hu) as [Hv <-].
      rewrite (Validate_ValidateId _ Hv), Hin, Hu. reflexivity.
    + destruct (node_ValidateId (Id c)); [| discriminate].
      destruct (nickdata r !! Id c) as [value |] eqn:Hl; [| discriminate].
      destruct (json_Unmarshal value) as [e | c'] eqn:Hu; [discriminate |].
      intros [= ->]. exists (Id c, value).
      split; [apply elem_of_map_to_list; exact Hl | exact Hu].
Qed.

(** X18. With such a codec, a claim that [Put] accepted after any history
    of calls on a new database is in the list [List] returns next, and the
    list has grown by one entry if the identity had none and kept its
    length if the claim replaced one. *)
Theorem List_after_Put (r r' : DB) (nickData : NickData) :
  json_round_trip ->
  reachable r ->
  Put r nickData = (r', None) ->
  exists rv,
    List r' = inr rv /\
    nickData ∈ rv /\
    length rv = match nickdata r !! Id nickData with
                | Some _ => size (nickdata r)
                | None => S (size (nickdata r))
                end.
Proof.
  intros Hrt [history Hr] HPut.
  assert (Hr' : reachable r').
  { exists (history ++ [OpPut nickData]). unfold run in *.
    rewrite fold_left_app, Hr. cbn [fold_left step]. rewrite HPut.
    reflexivity. }
  destruct (List_decodes r' Hrt Hr') as (rv & HList & Hloop).
  apply Put_nil_inv in HPut as (value & Hv & Hm & _ & _ & ->).
  exists rv. split; [exact HList |]. split.
  - apply (List_loop_members _ _ Hloop). exists (Id nickData, value).
    split; [| apply Hrt; assumption].
    apply elem_of_map_to_list. unfold stored. cbn [nickdata].
    apply lookup_insert_eq.
  - rewrite <- (Forall2_length Hloop), length_map_to_list.
    unfold stored. cbn [nickdata].
    destruct (nickdata r !! Id nickData) as [old |] eqn:Hl.
    + eapply map_size_insert_Some; eauto.
    + apply map_size_insert_None; assumption.
Qed.
End ListFacts.

(** ** What a signature covers *)

Section PayloadFacts.

Lemma is_digit_digit (d : Z) : 0 <= d < 10 -> is_digit (fmt.digit d).
Proof.
  intros Hd. unfold is_digit, char_between, fmt.digit.
  rewrite N_ascii_embedding by lia. simpl. lia.
Qed.

Lemma fmt_digits_are_digits : forall fuel u buf,
  0 <= u -> Forall is_digit buf -> Forall is_digit (fmt.fmt_digits fuel u buf).
Proof.
  induction fuel as [| fuel IH]; intros u buf Hu Hbuf; simpl;
    [assumption |].
  destruct (Z.leb_spec 10 u) as [Hge | Hlt].
  - apply IH; [apply Z.div_pos; lia |].
    constructor; [| assumption].
    apply is_digit_digit.
    pose proof (Z.div_mod u 10 ltac:(lia)).
    pose proof (Z.mod_pos_bound u 10 ltac:(lia)). lia.
  - constructor; [apply is_digit_digit; lia | assumption].
Qed.

Lemma fmt_digits_nonempty : forall fuel u buf,
  (fuel <> O \/ buf <> []) -> fmt.fmt_digits fuel u buf <> [].
Proof.
  induction fuel as [| fuel IH]; intros u buf Hne; simpl.
  - destruct Hne; congruence.
  - destruct (10 <=? u); [| discriminate].
    apply IH. right. discriminate.
Qed.

(** A numeral of [fmtInteger]: an optional sign, then digits. *)
Lemma fmtInteger_shape (v : Z) :
  exists sign digits,
    fmt.fmtInteger v = sign ++ digits /\
    (sign = [] \/ sign = ["-"%char]) /\
    digits <> [] /\ Forall is_digit digits.
Proof.
  unfold fmt.fmtInteger.
  destruct (Z.ltb_spec v 0) as [Hneg | Hpos].
  - exists ["-"%char], (fmt.fmt_digits 20 (- v) []).
    split; [reflexivity |]. split; [auto |].
    split; [apply fmt_digits_nonempty; auto |].
    apply fmt_digits_are_digits; [lia | constructor].
  - exists [], (fmt.fmt_digits 20 v []).
    split; [reflexivity |]. split; [auto |].
    split; [apply fmt_digits_nonempty; auto |].
    apply fmt_digits_are_digits; [lia | constructor].
Qed.

Lemma decimal_string_inj (v w : Z) :
  decimal_string v = decimal_string w -> v = w.
Proof.
  unfold decimal_string. intros Heq.
  assert (Hnn : forall z, Z.to_int z <> Decimal.Pos Decimal.Nil /\
                          Z.to_int z <> Decimal.Neg Decimal.Nil).
  { intros [| p | p]; simpl; split; try discriminate;
      intros [= Hp]; exact (DecimalPos.Unsigned.to_uint_nonnil p Hp). }
  apply DecimalZ.to_int_inj.
  assert (Hs : Some (Z.to_int v) = Some (Z.to_int w)); [| congruence].
  rewrite <- (NilZero.isi (Z.to_int v)) by apply Hnn.
  rewrite <- (NilZero.isi (Z.to_int w)) by apply Hnn.
  rewrite Heq. reflexivity.
Qed.

Lemma not_digit_and_letter (c : ascii) : is_digit c -> is_letter c -> False.
Proof.
  unfold is_digit, is_letter, char_between. simpl. lia.
Qed.

(** A run of digits in front of a repeated block shows up behind it. *)
Lemma digits_slide : forall (block digits rest rest' : list ascii),
  digits <> [] ->
  Forall is_digit digits ->
  block ++ rest = digits ++ block ++ rest' ->
  exists c tail, rest = c :: tail /\ is_digit c.
Proof.
  induction block as [| x block IH]; intros digits rest rest' Hne Hd Heq.
  - destruct digits as [| d digits]; [congruence |].
    simpl in Heq. subst rest. inversion Hd; subst. eauto.
  - destruct digits as [| d digits]; [congruence |].
    simpl in Heq. injection Heq as -> Heq.
    inversion Hd; subst.
    apply (IH (digits ++ [d]) rest rest').
    + destruct digits; discriminate.
    + apply Forall_app; split; [assumption | constructor; auto].
    + rewrite Heq, <- !app_assoc. reflexivity.
Qed.

Lemma ascii_of_list_byte_of_string (s : string) :
  map ascii_of_byte (list_byte_of_string s) = list_ascii_of_string s.
Proof.
  unfold list_byte_of_string. rewrite map_map.
  rewrite <- (map_id (list_ascii_of_string s)) at 2.
  apply map_ext. intros a. apply ascii_of_byte_of_ascii.
Qed.

Lemma valid_nick_starts_with_letter (nick : string) :
  ValidateNick nick = None ->
  exists c rest, list_ascii_of_string nick = c :: rest /\ is_letter c.
Proof.
  unfold ValidateNick.
  destruct (len_string nick <? minNickLength); [discriminate |].
  destruct (maxNickLength <? len_string nick); [discriminate |].
  destruct (regexp.MatchString nickRegexp nick) eqn:Hm; [| discriminate].
  intros _. apply MatchString_nickRegexp in Hm.
  destruct nick as [| c rest]; [contradiction |].
  exists c, (list_ascii_of_string rest). split; [reflexivity | tauto].
Qed.

(** X8. For one identity, the data to sign determines the Unix seconds and
    the nick: two claims with the same id and nicks that pass
    [ValidateNick] have the same data to sign only if their Unix seconds
    and their nicks are the same, although the three parts are written with
    nothing between them. *)
Theorem GetDataToSign_binds (a b : NickData) :
  Id a = Id b ->
  ValidateNick (Nick a) = None ->
  ValidateNick (Nick b) = None ->
  GetDataToSign a = GetDataToSign b ->
  time.Unix (Time a) = time.Unix (Time b) /\ Nick a = Nick b.
Proof.
  intros Hid Hna Hnb Heq.
  apply (f_equal (map ascii_of_byte)) in Heq.
  unfold GetDataToSign, bytes_pkg.Bytes, bytes_pkg.Write,
    bytes_pkg.WriteString, bytes_pkg.empty in Heq.
  cbn [app] in Heq.
  rewrite !map_app, !ascii_of_list_byte_of_string, <- !app_assoc, Hid in Heq.
  unfold fmt.Sprintf_d in Heq.
  rewrite !list_ascii_of_string_of_list_ascii in Heq.
  set (block := map ascii_of_byte (Id b)) in *.
  destruct (valid_nick_starts_with_letter _ Hna) as (ca & ra & Hca & Hla).
  destruct (valid_nick_starts_with_letter _ Hnb) as (cb & rb & Hcb & Hlb).
  assert (Hnum : fmt.fmtInteger (time.Unix (Time a))
                 = fmt.fmtInteger (time.Unix (Time b)) /\
                 list_ascii_of_string (Nick a)
                 = list_ascii_of_string (Nick b)).
  { destruct (fmtInteger_shape (time.Unix (Time a)))
      as (sa & da & Ha & Hsa & Hnea & Hda).
    destruct (fmtInteger_shape (time.Unix (Time b)))
      as (sb & db & Hb & Hsb & Hneb & Hdb).
    rewrite Ha, Hb in *. clear Ha Hb.
    rewrite <- !app_assoc in Heq.
    assert (Hsign : sa = sb).
    { destruct da as [| xa da]; [congruence |].
      destruct db as [| xb db]; [congruence |].
      inversion Hda; subst. inversion Hdb; subst.
      destruct Hsa as [-> | ->], Hsb as [-> | ->]; try reflexivity;
        simpl in Heq; injection Heq as Hc _; subst;
        match goal with
        | Hd : is_digit "-"%char |- _ =>
            unfold is_digit, char_between in Hd; simpl in Hd; lia
        end. }
    subst sb. apply app_inv_head in Heq.
    apply app_eq_inv in Heq as [(k & -> & Hk) | (k & -> & Hk)].
    - destruct k as [| x k].
      + rewrite app_nil_r. simpl in Hk. apply app_inv_head in Hk. auto.
      + exfalso. apply Forall_app in Hda as [_ Hdk].
        destruct (digits_slide block (x :: k) _ _ ltac:(discriminate)
                               Hdk Hk) as (c & tail & Hc & Hdc).
        rewrite Hcb in Hc. injection Hc as <- _.
        exact (not_digit_and_letter _ Hdc Hlb).
    - destruct k as [| x k].
      + rewrite app_nil_r. simpl in Hk. apply app_inv_head in Hk. auto.
      + exfalso. apply Forall_app in Hdb as [_ Hdk].
        destruct (digits_slide block (x :: k) _ _ ltac:(discriminate)
                               Hdk Hk) as (c & tail & Hc & Hdc).
        rewrite Hca in Hc. injection Hc as <- _.
        exact (not_digit_and_letter _ Hdc Hla). }
  destruct Hnum as [Hnum Hnick]. split.
  - apply decimal_string_inj.
    rewrite <- !Sprintf_d_decimal by apply wrap64_range.
    unfold fmt.Sprintf_d. rewrite Hnum. reflexivity.
  - rewrite <- (string_of_list_ascii_of_string (Nick a)),
      <- (string_of_list_ascii_of_string (Nick b)), Hnick. reflexivity.
Qed.
End PayloadFacts.

(** X9. The signature covers the time to the second only: a claim that
    passes [Validate] still passes it when the nanoseconds of its time are
    changed, as long as the time does not become the zero value. *)
Theorem Validate_ignores_nanoseconds `{External} (n : NickData) (nsec : Z) :
  Validate n = None ->
  (time.wall_sec (Time n) <> 0 \/ nsec <> 0) ->
  Validate (mkNickData (Id n) (Nick n)
                       (time.mkTime (time.wall_sec (Time n)) nsec)
                       (PublicKey n) (Signature n)) = None.
Proof.
  intros Hv Hnz. unfold Validate in *. cbn [Id Nick Time PublicKey Signature].
  destruct (scrypto_NewPublicKey (PublicKey n)) as [e | publicKey];
    [discriminate |].
  destruct (negb (node_ValidateId (Id n))); [discriminate |].
  destruct (PublicKey_Hash publicKey) as [e | id]; [discriminate |].
  destruct (negb (node_CompareId id (Id n))); [discriminate |].
  destruct (ValidateNick (Nick n)); [discriminate |].
  destruct (time.IsZero (Time n)); [discriminate |].
  assert (Hz : time.IsZero (time.mkTime (time.wall_sec (Time n)) nsec)
               = false).
  { unfold time.IsZero. cbn [time.wall_sec time.nsec].
    apply andb_false_iff. rewrite !Z.eqb_neq. exact Hnz. }
  rewrite Hz.
  change (GetDataToSign
            (mkNickData (Id n) (Nick n)
                        (time.mkTime (time.wall_sec (Time n)) nsec)
                        (PublicKey n) (Signature n)))
    with (GetDataToSign n).
  exact Hv.
Qed.

(** X10. The error of [ValidateNick] tells the failed check: too short,
    too long, or, for a nick of an admissible length, not of the form the
    regular expression describes. *)
Theorem ValidateNick_error (nick : string) :
  (len_string nick < 3 ->
   ValidateNick nick
   = Some (errors_New "nick needs to be at least 3 characters long")) /\
  (20 < len_string nick ->
   ValidateNick nick
   = Some (errors_New "nick needs to be at most 20 characters long")) /\
  (3 <= len_string nick <= 20 ->
   ~ nick_well_formed nick ->
   ValidateNick nick
   = Some (errors_New "nick does not match the regular expression")).
Proof.
  unfold ValidateNick, minNickLength, maxNickLength.
  split; [| split].
  - intros Hlen.
    destruct (Z.ltb_spec (len_string nick) 3); [reflexivity | lia].
  - intros Hlen.
    destruct (Z.ltb_spec (len_string nick) 3); [lia |].
    destruct (Z.ltb_spec 20 (len_string nick)); [reflexivity | lia].
  - intros Hlen Hnwf.
    destruct (Z.ltb_spec (len_string nick) 3); [lia |].
    destruct (Z.ltb_spec 20 (len_string nick)); [lia |].
    destruct (regexp.MatchString nickRegexp nick) eqn:Hm; [| reflexivity].
    exfalso. apply Hnwf. apply MatchString_nickRegexp in Hm.
    unfold nick_well_formed, len_string in *. split; [lia |].
    destruct nick; tauto.
Qed.

(** ** Calls of [Put] in either order *)

Section PutOrder.
Context `{External}.

Lemma View_stored_other (r : DB) (nickData : NickData) (value id : bytes) :
  id <> Id nickData ->
  bolt.View (stored r nickData value) (getNickData id)
  = bolt.View r (getNickData id).
Proof.
  intros Hne. rewrite !View_getNickData. unfold stored. cbn [nickdata].
  rewrite lookup_insert_ne by congruence. reflexivity.
Qed.

Lemma View_stored (r : DB) (nickData : NickData) (value : bytes) :
  json_Unmarshal value = inr nickData ->
  bolt.View (stored r nickData value) (getNickData (Id nickData))
  = inr (Some nickData).
Proof.
  intros Hu. rewrite View_getNickData. unfold stored. cbn [nickdata].
  rewrite lookup_insert_eq, Hu. reflexivity.
Qed.

Lemma stored_commute (r : DB) (a b : NickData) (va vb : bytes) :
  Id a <> Id b ->
  stored (stored r a va) b vb = stored (stored r b vb) a va.
Proof.
  intros Hne. unfold stored. cbn [nickdata nicks].
  f_equal; apply insert_insert_ne; congruence.
Qed.

Lemma run_puts_two (r r' : DB) (a b : NickData) (ea eb : option error) :
  run_puts r [a; b] = (r', [ea; eb]) <->
  exists ra, Put r a = (ra, ea) /\ Put ra b = (r', eb).
Proof.
  cbn [run_puts].
  destruct (Put r a) as [ra ea'].
  destruct (Put ra b) as [rb eb'] eqn:HPb. split.
  - intros [= <- <- <-]. eauto.
  - intros (ra' & [= <- <-] & HPb'). congruence.
Qed.

(** X11. Calls of [Put] for two identities commute: when the claims [a]
    and [b] of different identities are accepted in this order, they are
    accepted in the other order as well, with the same contents at the end
    (given that neither id is the byte string of the other claim's
    nick). *)
Theorem Put_two_identities_commute (r r' : DB) (a b : NickData) :
  Id a <> Id b ->
  Id a <> list_byte_of_string (Nick b) ->
  Id b <> list_byte_of_string (Nick a) ->
  run_puts r [a; b] = (r', [None; None]) ->
  run_puts r [b; a] = (r', [None; None]).
Proof.
  intros Hid Hab Hba Hrun.
  apply run_puts_two in Hrun as (ra & HPa & HPb).
  destruct (Put_nil_previous _ _ _ HPa) as (pa & Hpa & Hna).
  destruct (Put_nil_previous _ _ _ HPb) as (pb & Hpb & Hnb).
  apply Put_nil_inv in HPa as (va & Hva & Hma & Hca & Hka & ->).
  apply Put_nil_inv in HPb as (vb & Hvb & Hmb & Hcb & Hkb & ->).
  rewrite nick_conflict_stored in Hcb by assumption.
  rewrite View_stored_other in Hpb by congruence.
  apply run_puts_two. exists (stored r b vb). split.
  - apply Put_accepted; eauto.
  - rewrite (stored_commute r a b) by assumption.
    apply Put_accepted; try assumption.
    + rewrite nick_conflict_stored; assumption.
    + exists pa. rewrite View_stored_other by congruence. auto.
Qed.

(** X12. Two claims of one identity, the second with a later time, that
    are both accepted when the older one is put first: the claim stored
    at the end is the newer one, and when the newer one is put first it
    is accepted, the older one fails with [NewerNickDataPresentErr], and
    the contents at the end are the same (given a codec that reads back
    what it writes, and that the id is the byte string of neither
    nick). *)
Theorem Put_newer_claim_wins (r r' : DB) (older newer : NickData) :
  json_round_trip ->
  Id newer = Id older ->
  Id older <> list_byte_of_string (Nick older) ->
  Id older <> list_byte_of_string (Nick newer) ->
  time.before (Time older) (Time newer) ->
  run_puts r [older; newer] = (r', [None; None]) ->
  Get r' (Id newer) = inr (Some newer) /\
  run_puts r [newer; older] = (r', [None; Some NewerNickDataPresentErr]).
Proof.
  intros Hrt Hid Hno Hnn Hlt Hrun.
  apply run_puts_two in Hrun as (ro & HPo & HPn).
  destruct (Put_nil_previous _ _ _ HPo) as (previous & Hprev & Hfresh).
  apply Put_nil_inv in HPo as (vo & Hvo & Hmo & Hco & Hko & ->).
  apply Put_nil_inv in HPn as (vn & Hvn & Hmn & Hcn & Hkn & ->).
  pose proof (Hrt _ _ Hvn Hmn) as Hun.
  rewrite nick_conflict_stored in Hcn by assumption.
  assert (Hr' : stored (stored r older vo) newer vn = stored r newer vn).
  { unfold stored. cbn [nickdata nicks]. rewrite Hid.
    rewrite !insert_insert_eq. reflexivity. }
  rewrite Hr'.
  assert (Hafter : time.After (Time newer) (Time older) = true)
    by (apply After_before; exact Hlt).
  assert (Hfresh' : newer_present previous newer = false).
  { destruct previous as [p |]; [| reflexivity]. cbn [newer_present] in *.
    apply not_true_is_false. intros Hp. apply After_before in Hp.
    apply not_true_iff_false in Hfresh. apply Hfresh, After_before.
    unfold time.before in *. lia. }
  split.
  - rewrite (Get_View _ _ Hvn). apply View_stored. exact Hun.
  - apply run_puts_two. exists (stored r newer vn). split.
    + apply Put_accepted; try assumption.
      exists previous. rewrite Hid. auto.
    + rewrite Put_eq, Hvo, Hmo.
      rewrite nick_conflict_stored by congruence. rewrite Hco.
      rewrite <- Hid, View_stored by assumption.
      cbn [newer_present]. rewrite Hafter. reflexivity.
Qed.
End PutOrder.

(** ** The handlers of package [server] over the bolt repository *)

Section HexFacts.

Lemma fromHexChar_is_hex_digit (c : ascii) :
  is_Some (hex.fromHexChar c) <-> is_hex_digit c.
Proof.
  unfold hex.fromHexChar, is_hex_digit, char_between. simpl.
  destruct (N.leb_spec 48 (N_of_ascii c)), (N.leb_spec (N_of_ascii c) 57),
    (N.leb_spec 97 (N_of_ascii c)), (N.leb_spec (N_of_ascii c) 102),
    (N.leb_spec 65 (N_of_ascii c)), (N.leb_spec (N_of_ascii c) 70);
    simpl; split; intros Hx; eauto; try lia;
    destruct Hx as [? Hx]; discriminate.
Qed.

(** [Decode] succeeds on an even number of hex digits, two for each byte,
    and on nothing else. *)
Lemma Decode_hex : forall (n : nat) (src : list ascii),
  (length src <= n)%nat ->
  match hex.Decode src with
  | inr dst =>
      Nat.Even (length src) /\ Forall is_hex_digit src /\
      (2 * length dst = length src)%nat
  | inl _ => ~ (Nat.Even (length src) /\ Forall is_hex_digit src)
  end.
Proof.
  induction n as [| n IH]; intros src Hlen.
  { destruct src; [| simpl in Hlen; lia]. simpl.
    split; [exists O; reflexivity | split; [constructor | reflexivity]]. }
  destruct src as [| p [| q src]].
  - simpl. split; [exists O; reflexivity | split; [constructor | reflexivity]].
  - cbn [hex.Decode].
    destruct (hex.fromHexChar p); intros [[k Hk] _]; simpl in Hk; lia.
  - cbn [hex.Decode].
    destruct (hex.fromHexChar p) as [a |] eqn:Hp.
    2:{ intros [_ Hall]. inversion Hall as [| ? ? Hd _]; subst.
        apply fromHexChar_is_hex_digit in Hd as [? Hd]. congruence. }
    destruct (hex.fromHexChar q) as [b |] eqn:Hq.
    2:{ intros [_ Hall]. inversion Hall as [| ? ? _ Hall']; subst.
        inversion Hall' as [| ? ? Hd _]; subst.
        apply fromHexChar_is_hex_digit in Hd as [? Hd]. congruence. }
    specialize (IH src ltac:(simpl in Hlen; lia)).
    destruct (hex.Decode src) as [e | dst].
    + intros [[k Hk] Hall]. apply IH. split.
      * exists (k - 1)%nat. simpl in Hk. lia.
      * inversion Hall as [| ? ? _ Hall']; subst.
        inversion Hall'; subst. assumption.
    + destruct IH as ([k Hk] & Hall & Hl). split; [| split].
      * exists (S k). simpl. lia.
      * constructor; [apply fromHexChar_is_hex_digit; eauto |].
        constructor; [apply fromHexChar_is_hex_digit; eauto | assumption].
      * simpl. simpl in Hl. lia.
Qed.

Lemma DecodeString_hex (s : string) :
  match hex.DecodeString s with
  | inr dst =>
      is_hex_string s /\ (2 * length dst = String.length s)%nat
  | inl _ => ~ is_hex_string s
  end.
Proof.
  unfold hex.DecodeString, is_hex_string.
  pose proof (Decode_hex _ (list_ascii_of_string s) (le_n _)) as Hd.
  rewrite length_list_ascii_of_string in Hd.
  destruct (hex.Decode (list_ascii_of_string s)); tauto.
Qed.

Lemma list_ascii_of_string_append (s t : string) :
  list_ascii_of_string (s +:+ t)
  = list_ascii_of_string s ++ list_ascii_of_string t.
Proof.
  induction s as [| c s IH]; [reflexivity |].
  change (String c s +:+ t) with (String c (s +:+ t)).
  cbn [list_ascii_of_string app]. f_equal. exact IH.
Qed.

Lemma TrimSuffix_append (s suffix : string) :
  strings_pkg.TrimSuffix (s +:+ suffix) suffix = s.
Proof.
  unfold strings_pkg.TrimSuffix, strings_pkg.HasSuffix, strings_pkg.slice.
  rewrite <- !length_list_ascii_of_string, list_ascii_of_string_append.
  rewrite length_app.
  replace (length (list_ascii_of_string s)
           + length (list_ascii_of_string suffix)
           - length (list_ascii_of_string suffix))%nat
    with (length (list_ascii_of_string s)) by lia.
  rewrite drop_app_length, Nat.sub_0_r, drop_0, take_app_length.
  replace (length (list_ascii_of_string s)
           + length (list_ascii_of_string suffix)
           - length (list_ascii_of_string s))%nat
    with (length (list_ascii_of_string suffix)) by lia.
  rewrite firstn_all, !string_of_list_ascii_of_string.
  rewrite bool_decide_eq_true_2 by reflexivity.
  destruct (Nat.leb_spec (length (list_ascii_of_string suffix))
              (length (list_ascii_of_string s)
               + length (list_ascii_of_string suffix))); [reflexivity | lia].
Qed.
End HexFacts.

Section ServerFacts.
Context `{External}.

(** The claim read from the body is valid: it is not one that fails. *)
Ltac valid_claim :=
  let b := fresh "b" in
  let n := fresh "n" in
  let Hn := fresh "Hn" in
  let Hnv := fresh "Hnv" in
  intros b n [= <-] Hn Hnv; congruence.

Lemma isClientError_cases (err : error) :
  isClientError err = true <->
  err = InvalidNickDataErr \/ err = NewerNickDataPresentErr \/
  err = NickConflictErr \/ err = InvalidNodeIdErr.
Proof.
  unfold isClientError.
  rewrite !orb_true_iff, !bool_decide_eq_true. tauto.
Qed.

(** X13. [PutNick] over the bolt repository answers without a value; when
    it answers without an error the claim read from the body was put; when
    it answers with an error the contents are unchanged, and the error is
    "Bad request." for a body that is missing, unreadable or not a claim,
    the text of one of the three sentinel errors of [Put] with code 400, or
    "Internal server error." with code 500.  A claim that fails [Validate]
    is answered with 400 "invalid nick data". *)
Theorem PutNick_outcome (r r' : DB) (request : Request)
        (ps : httprouter.Params) (response : payload)
        (apiErr : option api.apiError) :
  PutNick r request ps = (r', (response, apiErr)) ->
  response = payload_nil /\
  match apiErr with
  | None =>
      exists body nickData,
        Body request = Some (inr body) /\
        json_Unmarshal body = inr nickData /\
        Put r nickData = (r', None)
  | Some e =>
      r' = r /\
      (e = api.BadRequest \/
       e = api.mkApiError 400 "invalid nick data" \/
       e = api.mkApiError 400 "newer nick data is available" \/
       e = api.mkApiError 400 "nick is already taken" \/
       e = api.InternalServerError)
  end /\
  (forall body nickData,
      Body request = Some (inr body) ->
      json_Unmarshal body = inr nickData ->
      Validate nickData <> None ->
      apiErr = Some (api.mkApiError 400 "invalid nick data")).
Proof.
  unfold PutNick. cbn [repository_Put BoltRepository].
  destruct (Body request) as [[e | body] |].
  1, 3: intros [= <- <- <-]; repeat split; auto; discriminate.
  destruct (json_Unmarshal body) as [e | nickData] eqn:Hu.
  { intros [= <- <- <-]. repeat split; auto; congruence. }
  rewrite Put_eq.
  destruct (Validate nickData) eqn:Hv.
  { cbn. intros [= <- <- <-]. repeat split; auto. }
  destruct (json_Marshal nickData) as [cause | value] eqn:Hm.
  { cbn. intros [= <- <- <-]. repeat split; auto 6; valid_claim. }
  destruct (nick_conflict r nickData) eqn:Hc.
  { cbn. intros [= <- <- <-]. repeat split; auto 6; valid_claim. }
  destruct (bolt.View r (getNickData (Id nickData)))
    as [cause | previous] eqn:Hp.
  { cbn. intros [= <- <- <-]. repeat split; auto 6; valid_claim. }
  destruct (newer_present previous nickData) eqn:Hn.
  { cbn. intros [= <- <- <-]. repeat split; auto 6; valid_claim. }
  destruct (bolt.put_check (Id nickData) value) as [cause |] eqn:Hk.
  { cbn. intros [= <- <- <-]. repeat split; auto 6; valid_claim. }
  intros [= <- <- <-]. split; [reflexivity |]. split; [| valid_claim].
  exists body, nickData. split; [reflexivity |]. split; [exact Hu |].
  rewrite Put_eq, Hv, Hm, Hc, Hp, Hn, Hk. reflexivity.
Qed.

(** X14. [GetNick] over the bolt repository, by the id parameter with a
    ".json" suffix removed: 400 "Invalid node ID." exactly when it is not
    an even number of hex digits; otherwise it is decoded, two digits a
    byte, and the answer is 400 "invalid node id" for an id of the wrong
    format, 404 when nothing is stored under the id, the stored claim when
    it decodes, and 500 when it does not. *)
Theorem GetNick_outcome (r : DB) (request : Request)
        (ps : httprouter.Params) :
  (~ is_hex_string (getParamString ps "id") <->
   GetNick r request ps
   = (payload_nil, Some (api.mkApiError 400 "Invalid node ID."))) /\
  (forall id,
      hex.DecodeString (getParamString ps "id") = inr id ->
      (2 * length id = String.length (getParamString ps "id"))%nat /\
      GetNick r request ps =
      if node_ValidateId id then
        match nickdata r !! id with
        | None => (payload_nil, Some api.NotFound)
        | Some value =>
            match json_Unmarshal value with
            | inr nickData => (payload_NickData nickData, None)
            | inl _ => (payload_nil, Some api.InternalServerError)
            end
        end
      else (payload_nil, Some (api.mkApiError 400 "invalid node id"))).
Proof.
  unfold GetNick. cbn [repository_Get BoltRepository].
  pose proof (DecodeString_hex (getParamString ps "id")) as Hhex.
  destruct (hex.DecodeString (getParamString ps "id")) as [e | id].
  - split; [tauto | discriminate].
  - destruct Hhex as [Hhex Hlen].
    assert (Hget : match Get r id with
                   | inl err =>
                       if isClientError err
                       then (payload_nil,
                             Some (api.WithMessage api.BadRequest
                                     (error_Error err)))
                       else (payload_nil, Some api.InternalServerError)
                   | inr None => (payload_nil, Some api.NotFound)
                   | inr (Some nickData) => (payload_NickData nickData, None)
                   end =
                   if node_ValidateId id then
                     match nickdata r !! id with
                     | None => (payload_nil, Some api.NotFound)
                     | Some value =>
                         match json_Unmarshal value with
                         | inr nickData => (payload_NickData nickData, None)
                         | inl _ => (payload_nil, Some api.InternalServerError)
                         end
                     end
                   else (payload_nil,
                         Some (api.mkApiError 400 "invalid node id"))).
    { rewrite Get_eq. destruct (node_ValidateId id); [| reflexivity].
      destruct (nickdata r !! id) as [value |]; [| reflexivity].
      destruct (json_Unmarshal value); reflexivity. }
    split.
    + split; [tauto |]. rewrite Hget. intros Heq. exfalso.
      destruct (node_ValidateId id); [| discriminate].
      destruct (nickdata r !! id) as [value |]; [| discriminate].
      destruct (json_Unmarshal value); discriminate.
    + intros id' [= <-]. split; [exact Hlen | exact Hget].
Qed.

(** X15. With a codec that reads back what it writes, after any history of
    calls on a new database the handlers that read never answer with
    "Internal server error.": [GetNicks] answers with the list of [List],
    and whatever [GetNick] answers is not that error. *)
Theorem reads_never_fail (r : DB) (request : Request)
        (ps : httprouter.Params) :
  json_round_trip ->
  reachable r ->
  (exists nicks,
      List r = inr nicks /\
      GetNicks r request ps = (payload_NickDatas nicks, None)) /\
  snd (GetNick r request ps) <> Some api.InternalServerError.
Proof.
  intros Hrt Hr. split.
  - destruct (List_decodes r Hrt Hr) as (rv & HList & _).
    exists rv. split; [exact HList |].
    unfold GetNicks. cbn [repository_List BoltRepository].
    rewrite HList. reflexivity.
  - unfold GetNick. cbn [repository_Get BoltRepository].
    destruct (hex.DecodeString (getParamString ps "id")) as [e | id];
      [discriminate |].
    rewrite Get_eq. destruct (node_ValidateId id); [| discriminate].
    destruct (nickdata r !! id) as [value |] eqn:Hl; [| discriminate].
    apply reachable_buckets_by_id in Hr as [_ Hent].
    destruct (Hent _ _ Hl) as (n & Hv & Hm & _).
    rewrite (Hrt _ _ Hv Hm). discriminate.
Qed.

(** X17. A request to put a claim, answered through [Call], given that
    [json.Marshal] writes nil and error values: the status code is 200, 400
    or 500; it is 200 exactly when the claim read from the body was put;
    with any other status the contents are unchanged. *)
Theorem PutNick_status `{ExternalAPI} (r r' : DB) (request : Request)
        (ps : httprouter.Params) (handled : payload * option api.apiError) :
  (exists j, json_Marshal_payload payload_nil = inr j) ->
  (forall code message,
      exists j, json_Marshal_payload (payload_apiError code message) = inr j)
  ->
  PutNick r request ps = (r', handled) ->
  let status := api.StatusCode (api.Call handled) in
  (status = 200 \/ status = 400 \/ status = 500) /\
  (status = 200 <->
   exists body nickData,
     Body request = Some (inr body) /\
     json_Unmarshal body = inr nickData /\
     Put r nickData = (r', None)) /\
  (status <> 200 -> r' = r).
Proof.
  intros [jnil Hnil] Herr HPut status.
  assert (Hcall : forall e, api.StatusCode (api.Call (payload_nil, Some e))
                            = api.Code e).
  { intros e. unfold api.Call, api.GetCode, api.Error.
    destruct (Herr (api.Code e) (api.Message e)) as [j ->]. reflexivity. }
  assert (Hok : api.StatusCode (api.Call (payload_nil, None)) = 200).
  { unfold api.Call. rewrite Hnil. reflexivity. }
  unfold PutNick in HPut. cbn [repository_Put BoltRepository] in HPut.
  destruct (Body request) as [[e | body] |].
  1, 3: injection HPut as <- <-; subst status; rewrite Hcall; cbn;
    split; [auto |]; split; [split; [discriminate |] | reflexivity];
    intros (b & n & Hb & _); discriminate.
  destruct (json_Unmarshal body) as [e | nickData] eqn:Hu.
  { injection HPut as <- <-. subst status. rewrite Hcall. cbn.
    split; [auto |]. split; [split; [discriminate |] | reflexivity].
    intros (b & n & [= <-] & Hn & _). congruence. }
  destruct (Put r nickData) as [r1 [err |]] eqn:HP.
  - pose proof (Put_error_unchanged _ _ _ _ HP) as ->.
    assert (Hstatus : status = 400 \/ status = 500).
    { subst status.
      destruct (isClientError err); injection HPut as <- <-;
        rewrite Hcall; cbn; auto. }
    assert (Hr : r' = r)
      by (destruct (isClientError err); injection HPut as <- <-;
          reflexivity).
    split; [tauto |]. split; [split; [lia |] | auto].
    intros (b & n & [= <-] & Hn & HPn).
    rewrite Hu in Hn. injection Hn as <-. congruence.
  - injection HPut as <- <-. subst status. rewrite Hok.
    split; [auto |]. split; [| congruence].
    split; [| reflexivity]. intros _. eauto.
Qed.
End ServerFacts.

(** X16. The id may carry a ".json" suffix: with any repository, [GetNick]
    answers a request for an id followed by ".json" as it answers the
    request for the id, for an id that does not itself end in ".json". *)
Theorem GetNick_json_suffix {S : Type} `{!Repository S} (repository : S)
        (request : Request) (id : string) :
  strings_pkg.HasSuffix id ".json" = false ->
  GetNick repository request [("id"%string, id +:+ ".json")]
  = GetNick repository request [("id"%string, id)].
Proof.
  intros Hns. unfold GetNick, getParamString.
  cbn [httprouter.ByName String.eqb Ascii.eqb Bool.eqb].
  rewrite TrimSuffix_append.
  unfold strings_pkg.TrimSuffix at 1. rewrite Hns. reflexivity.
Qed.

(** ** The tests of package [server], run on the handlers over the bolt
    repository *)

Example TestGetInvalidNodeId :
  fixture_api.status_of (@GetNick DB (@BoltRepository codec.external) codec.after_A
               (mkRequest None) [("id"%string, "jfka"%string)]) = 400.
Proof. vm_compute. reflexivity. Qed.

Example TestGetNonexistent :
  fixture_api.status_of (@GetNick DB (@BoltRepository codec.external) codec.after_A
               (mkRequest None)
               [("id"%string, "7075626c6963206b6579206f6620420000000000000000000000000000000000"%string)])
  = 404.
Proof. vm_compute. reflexivity. Qed.

Example TestGet :
  @GetNick DB (@BoltRepository codec.external) codec.after_A
    (mkRequest None)
    [("id"%string, "7075626c6963206b6579206f6620410000000000000000000000000000000000"%string)]
  = (payload_NickData fixture.claimA, None).
Proof. vm_compute. reflexivity. Qed.

Example TestPut :
  fixture_api.status_of (snd (@PutNick codec.external DB (@BoltRepository codec.external)
                    (NewBoltRepository None)
                    (fixture_api.put_request fixture.claimA) [])) = 200.
Proof. vm_compute. reflexivity. Qed.

Example TestPutMalformedJson :
  fixture_api.status_of (snd (@PutNick codec.external DB (@BoltRepository codec.external)
                    (NewBoltRepository None)
                    (fixture_api.request (list_byte_of_string "[]")) []))
  = 400.
Proof. vm_compute. reflexivity. Qed.

Example TestPutNoBody :
  fixture_api.status_of (snd (@PutNick codec.external DB (@BoltRepository codec.external)
                    (NewBoltRepository None) (mkRequest None) [])) = 400.
Proof. vm_compute. reflexivity. Qed.

Example TestList :
  @GetNicks DB (@BoltRepository codec.external) (NewBoltRepository None)
    (mkRequest None) [] = (payload_NickDatas [], None).
Proof. vm_compute. reflexivity. Qed.

(** ** The further properties at the fixtures *)

Lemma of_bits_bits (p : positive) : codec.of_bits (codec.bits p) = Some p.
Proof.
  induction p as [p IH | p IH |]; cbn [codec.bits codec.of_bits];
    rewrite ?IH; reflexivity.
Qed.

(** The codec of [codec] reads back what it writes. *)
Lemma codec_round_trip : @json_round_trip codec.external.
Proof.
  intros n value _ Hm. injection Hm as <-.
  change (codec.Unmarshal (codec.bits (encode (codec.fields n))) = inr n).
  unfold codec.Unmarshal. rewrite of_bits_bits, decode_encode.
  destruct n as [id nick [sec nsec] publicKey signature]. reflexivity.
Qed.

Lemma reachable_codec_after_A_B : @reachable codec.external codec.after_A_B.
Proof. exists [OpPut fixture.claimA; OpPut fixture.claimB]. reflexivity. Qed.

Lemma Put_outcome_witness :
  (exists value,
      @json_Marshal fixture.external fixture.claimB = inr value /\
      stored fixture.after_A fixture.claimB (fixture.encode fixture.claimB)
      = stored fixture.after_A fixture.claimB value) /\
  (NewerNickDataPresentErr = InvalidNickDataErr \/
   NewerNickDataPresentErr = NickConflictErr \/
   NewerNickDataPresentErr = NewerNickDataPresentErr \/
   exists cause,
     NewerNickDataPresentErr
     = errors_Wrap cause "marshaling nick data failed" \/
     NewerNickDataPresentErr = errors_Wrap cause "update failed").
Proof.
  split.
  - apply (@Put_outcome fixture.external fixture.after_A _ fixture.claimB
             None). by_eval.
  - apply (@Put_outcome fixture.external fixture.after_A fixture.after_A
             fixture.claimA_older (Some NewerNickDataPresentErr)). by_eval.
Defined.

Lemma history_keeps_entries_witness :
  is_Some
    (nickdata (fold_left (@step fixture.external)
                 [OpPut fixture.claimB; OpPut fixture.claimA_older; OpList]
                 fixture.after_A) !! fixture.idA).
Proof.
  apply (@history_keeps_entries fixture.external).
  exists (fixture.encode fixture.claimA). by_eval.
Defined.

Lemma reachable_entries_valid_witness :
  nicks fixture.after_A = nickdata fixture.after_A.
Proof.
  apply (@reachable_entries_valid fixture.external fixture.after_A).
  exists [OpPut fixture.claimA]. reflexivity.
Defined.

Lemma Get_reachable_witness :
  @Validate codec.external fixture.claimB = None /\
  Id fixture.claimB = fixture.idB.
Proof.
  apply (proj2 (@Get_reachable codec.external codec.after_A_B fixture.idB
                  codec_round_trip reachable_codec_after_A_B)).
  by_eval.
Defined.

Lemma history_time_monotone_witness :
  exists current,
    @Get codec.external
      (fold_left (@step codec.external)
         [OpPut fixture.claimA_older; OpPut fixture.claimA_newer]
         codec.after_A) fixture.idA = inr (Some current) /\
    ~ time.before (Time current) (Time fixture.claimA).
Proof.
  apply (@history_time_monotone codec.external _ codec.after_A fixture.idA
           fixture.claimA codec_round_trip).
  by_eval.
Defined.

Lemma List_reachable_witness :
  exists rv,
    @List codec.external codec.after_A_B = inr rv /\
    length rv = size (nickdata codec.after_A_B) /\
    NoDup (Id <$> rv) /\
    forall c, c ∈ rv <-> @Get codec.external codec.after_A_B (Id c)
                         = inr (Some c).
Proof.
  exact (@List_reachable codec.external codec.after_A_B codec_round_trip
           reachable_codec_after_A_B).
Defined.

Lemma List_after_Put_witness :
  exists rv,
    @List codec.external codec.after_A_B = inr rv /\
    fixture.claimB ∈ rv /\
    length rv = S (size (nickdata codec.after_A)).
Proof.
  apply (@List_after_Put codec.external codec.after_A codec.after_A_B
           fixture.claimB codec_round_trip).
  - exists [OpPut fixture.claimA]. reflexivity.
  - by_eval.
Defined.

(** Two claims that differ in the nanoseconds, the key and the signature
    only. *)
Lemma GetDataToSign_binds_witness :
  time.Unix (Time fixture.claimA)
  = time.Unix (time.mkTime (time.wall_sec (Time fixture.claimA)) 7) /\
  Nick fixture.claimA = "nick"%string.
Proof.
  apply (GetDataToSign_binds fixture.claimA
           (mkNickData fixture.idA "nick"
              (time.mkTime (time.wall_sec (Time fixture.claimA)) 7) [] []));
    by_eval.
Defined.

Lemma Validate_ignores_nanoseconds_witness :
  @Validate fixture.external
    (mkNickData (Id fixture.claimA) (Nick fixture.claimA)
       (time.mkTime (time.wall_sec (Time fixture.claimA)) 999999999)
       (PublicKey fixture.claimA) (Signature fixture.claimA)) = None.
Proof.
  apply (@Validate_ignores_nanoseconds fixture.external fixture.claimA
           999999999); [by_eval |].
  right. discriminate.
Defined.

Lemma ValidateNick_error_witness :
  ValidateNick "aa"
  = Some (errors_New "nick needs to be at least 3 characters long") /\
  ValidateNick "aaaaaaaaaaaaaaaaaaaaa"
  = Some (errors_New "nick needs to be at most 20 characters long") /\
  ValidateNick "_bcde"
  = Some (errors_New "nick does not match the regular expression").
Proof.
  split; [| split].
  - apply (proj1 (ValidateNick_error "aa")). vm_compute. reflexivity.
  - apply (proj1 (proj2 (ValidateNick_error "aaaaaaaaaaaaaaaaaaaaa"))).
    vm_compute. reflexivity.
  - apply (proj2 (proj2 (ValidateNick_error "_bcde"))).
    + vm_compute. split; discriminate.
    + intros [_ [Hletter _]].
      unfold is_letter, char_between in Hletter. simpl in Hletter. lia.
Defined.

Lemma Put_two_identities_commute_witness :
  @run_puts fixture.external (NewBoltRepository None)
    [fixture.claimB; fixture.claimA]
  = (stored (stored (NewBoltRepository None) fixture.claimA
               (fixture.encode fixture.claimA))
            fixture.claimB (fixture.encode fixture.claimB),
     [None; None]).
Proof.
  apply (@Put_two_identities_commute fixture.external); by_eval.
Defined.

Lemma Put_newer_claim_wins_witness :
  @Get codec.external
    (@run codec.external [OpPut fixture.claimA; OpPut fixture.claimA_newer])
    (Id fixture.claimA_newer) = inr (Some fixture.claimA_newer) /\
  @run_puts codec.external (NewBoltRepository None)
    [fixture.claimA_newer; fixture.claimA]
  = (@run codec.external [OpPut fixture.claimA; OpPut fixture.claimA_newer],
     [None; Some NewerNickDataPresentErr]).
Proof.
  apply (@Put_newer_claim_wins codec.external (NewBoltRepository None)
           (@run codec.external
              [OpPut fixture.claimA; OpPut fixture.claimA_newer])
           fixture.claimA fixture.claimA_newer codec_round_trip);
    try by_eval.
  left. vm_compute. reflexivity.
Defined.

(** A request that puts [claimB] after [claimA]; a request with an older
    claim of A. *)
Lemma PutNick_outcome_witness :
  (exists body nickData,
      Body (fixture_api.put_request fixture.claimB) = Some (inr body) /\
      @json_Unmarshal codec.external body = inr nickData /\
      @Put codec.external codec.after_A nickData = (codec.after_A_B, None))
  /\
  (codec.after_A = codec.after_A /\
   (api.mkApiError 400 "newer nick data is available" = api.BadRequest \/
    api.mkApiError 400 "newer nick data is available"
    = api.mkApiError 400 "invalid nick data" \/
    api.mkApiError 400 "newer nick data is available"
    = api.mkApiError 400 "newer nick data is available" \/
    api.mkApiError 400 "newer nick data is available"
    = api.mkApiError 400 "nick is already taken" \/
    api.mkApiError 400 "newer nick data is available"
    = api.InternalServerError)).
Proof.
  split.
  - apply (@PutNick_outcome codec.external codec.after_A codec.after_A_B
             (fixture_api.put_request fixture.claimB) [] payload_nil None).
    by_eval.
  - apply (@PutNick_outcome codec.external codec.after_A codec.after_A
             (fixture_api.put_request fixture.claimA_older) [] payload_nil
             (Some (api.mkApiError 400 "newer nick data is available"))).
    by_eval.
Defined.

(** [TestGetInvalidNodeId]: the id "jfka"; and the hex text of two bytes. *)
Lemma GetNick_outcome_witness :
  @GetNick DB (@BoltRepository codec.external) codec.after_A
    (mkRequest None) [("id"%string, "jfka"%string)]
  = (payload_nil, Some (api.mkApiError 400 "Invalid node ID.")) /\
  @GetNick DB (@BoltRepository codec.external) codec.after_A
    (mkRequest None) [("id"%string, "6964.json"%string)]
  = (payload_nil, Some (api.mkApiError 400 "invalid node id")).
Proof.
  split.
  - apply (proj1 (@GetNick_outcome codec.external codec.after_A
                    (mkRequest None) [("id"%string, "jfka"%string)])).
    intros [_ Hall].
    change (Forall is_hex_digit ["j"; "f"; "k"; "a"]%char) in Hall.
    inversion Hall as [| ? ? Hj _]; subst.
    unfold is_hex_digit, char_between in Hj. simpl in Hj. lia.
  - apply (proj2 (@GetNick_outcome codec.external codec.after_A
                    (mkRequest None) [("id"%string, "6964.json"%string)])
             (list_byte_of_string "id")).
    by_eval.
Defined.

Lemma reads_never_fail_witness :
  (exists nicks,
      @List codec.external codec.after_A_B = inr nicks /\
      @GetNicks DB (@BoltRepository codec.external) codec.after_A_B
        (mkRequest None) [] = (payload_NickDatas nicks, None)) /\
  snd (@GetNick DB (@BoltRepository codec.external) codec.after_A_B
         (mkRequest None) [("id"%string, "6964"%string)])
  <> Some api.InternalServerError.
Proof.
  exact (@reads_never_fail codec.external codec.after_A_B (mkRequest None)
           [("id"%string, "6964"%string)] codec_round_trip
           reachable_codec_after_A_B).
Defined.

Lemma GetNick_json_suffix_witness :
  @GetNick DB (@BoltRepository codec.external) codec.after_A
    (mkRequest None) [("id"%string, "6964.json"%string)]
  = @GetNick DB (@BoltRepository codec.external) codec.after_A
      (mkRequest None) [("id"%string, "6964"%string)].
Proof.
  apply (@GetNick_json_suffix DB (@BoltRepository codec.external)
           codec.after_A (mkRequest None) "6964").
  vm_compute. reflexivity.
Defined.

(** A request with an older claim of A, after [Put(claimA)]. *)
Lemma PutNick_status_witness :
  fixture_api.status_of
    (snd (@PutNick codec.external DB (@BoltRepository codec.external)
            codec.after_A (fixture_api.put_request fixture.claimA_older) []))
  = 200 \/
  fixture_api.status_of
    (snd (@PutNick codec.external DB (@BoltRepository codec.external)
            codec.after_A (fixture_api.put_request fixture.claimA_older) []))
  = 400 \/
  fixture_api.status_of
    (snd (@PutNick codec.external DB (@BoltRepository codec.external)
            codec.after_A (fixture_api.put_request fixture.claimA_older) []))
  = 500.
Proof.
  apply (@PutNick_status codec.external fixture_api.external codec.after_A
           codec.after_A (fixture_api.put_request fixture.claimA_older) []).
  - exists [Byte.x00]. reflexivity.
  - intros code message. eexists. reflexivity.
  - by_eval.
Defined.
